(** * Verification of the recipe extraction and ingredient aggregation code

    Pipeline A: [scripts/parse-recetas.js] ([slugify], [isIndexEntry],
    [isRecipeTitle], [cleanTitle], [looksLikeIngredient], [separateContent],
    [parseRecipes], [main]).
    Pipeline B: the ingredient utilities ([parseQuantityFromLabel],
    [getCleanDisplayName], [areUnitsCompatible], [formatQuantity],
    [combineIngredients]).
    The recipe page: [getReceta] and [RecetaPage], reading the files that
    [main] writes.

    A JavaScript string is modelled as its list of UTF-16 code units
    ([jstr := list N]).  Regular expressions are modelled by the matchers
    they denote; each matcher's comment explains why greedy matching plus
    backtracking collapses to the function written.  JavaScript numbers are
    modelled as exact rationals [Q]; the module [Dbl] embeds the numbers of
    [parseQuantityFromLabel] and [combineIngredients] again as IEEE-754
    doubles, for the totals, where rounding matters. *)

From Stdlib Require Import Ascii String.
From Stdlib Require Import List Bool NArith ZArith QArith Qround.
From Stdlib Require Import Permutation Sorted Lia.
From Stdlib Require Floats.
Import ListNotations.

Open Scope N_scope.

(** ** JavaScript strings *)

Definition jstr := list N.

Definition jstr_eq_dec : forall a b : jstr, {a = b} + {a <> b} :=
  list_eq_dec N.eq_dec.

Definition jstr_eqb (a b : jstr) : bool :=
  if jstr_eq_dec a b then true else false.

(** Test-literal helper: decode a UTF-8 Rocq string (1 to 3 byte
    sequences, i.e. the Basic Multilingual Plane) into code units. *)
Fixpoint utf8_decode (bs : list N) : list N :=
  match bs with
  | [] => []
  | b :: rest =>
      if b <? 128 then b :: utf8_decode rest
      else match rest with
           | [] => []
           | b1 :: rest1 =>
               if b <? 224 then ((b - 192) * 64 + (b1 - 128)) :: utf8_decode rest1
               else match rest1 with
                    | [] => []
                    | b2 :: rest2 =>
                        ((b - 224) * 4096 + (b1 - 128) * 64 + (b2 - 128))
                          :: utf8_decode rest2
                    end
           end
  end.

Fixpoint string_bytes (s : String.string) : list N :=
  match s with
  | String.EmptyString => []
  | String.String c r => N_of_ascii c :: string_bytes r
  end.

Definition js (s : String.string) : jstr := utf8_decode (string_bytes s).

(** [\s] of JavaScript regular expressions, which is also the set of
    characters removed by [String.prototype.trim]: WhiteSpace (TAB, VT, FF,
    SP, NBSP, ZWNBSP and the Zs category) and LineTerminator (LF, CR, LS,
    PS). *)
Definition is_space (c : N) : bool :=
  (c =? 9) || (c =? 10) || (c =? 11) || (c =? 12) || (c =? 13) || (c =? 32)
  || (c =? 160) || (c =? 5760) || ((8192 <=? c) && (c <=? 8202))
  || (c =? 8232) || (c =? 8233) || (c =? 8239) || (c =? 8287)
  || (c =? 12288) || (c =? 65279).

(** [\d] *)
Definition is_digit (c : N) : bool := (48 <=? c) && (c <=? 57).

Definition is_upper_ascii (c : N) : bool := (65 <=? c) && (c <=? 90).
Definition is_lower_ascii (c : N) : bool := (97 <=? c) && (c <=? 122).

(** [toLowerCase] restricted to ASCII code units; it is only applied to
    strings the code has already matched against ASCII-only patterns. *)
Definition ascii_lower_cu (c : N) : N := if is_upper_ascii c then c + 32 else c.
Definition ascii_lower (s : jstr) : jstr := map ascii_lower_cu s.

(** Case-insensitive comparison of a pattern character [p] with an input
    character [c] under the [/i] flag without [/u]: both are canonicalised
    with [toUpperCase], except that a non-ASCII character never
    canonicalises to an ASCII one.  For the pattern characters of this code
    (ASCII letters, digits, and the Latin-1 letters of the Spanish verbs)
    the characters matching [p] are [p] and its other-case partner. *)
Definition swap_case (c : N) : N :=
  if is_upper_ascii c then c + 32
  else if is_lower_ascii c then c - 32
  else if (192 <=? c) && (c <=? 222) && negb (c =? 215) then c + 32
  else if (224 <=? c) && (c <=? 254) && negb (c =? 247) then c - 32
  else c.

Definition ci_eq (p c : N) : bool := (c =? p) || (c =? swap_case p).

Fixpoint span (p : N -> bool) (s : jstr) : jstr * jstr :=
  match s with
  | [] => ([], [])
  | c :: r => if p c then let (a, b) := span p r in (c :: a, b) else ([], s)
  end.

Fixpoint drop_while (p : N -> bool) (s : jstr) : jstr :=
  match s with
  | [] => []
  | c :: r => if p c then drop_while p r else s
  end.

(** [String.prototype.trim] *)
Definition trim (s : jstr) : jstr :=
  rev (drop_while is_space (rev (drop_while is_space s))).

Definition is_blank (s : jstr) : bool :=
  match trim s with [] => true | _ => false end.

(** [Array.prototype.join] *)
Fixpoint join (sep : jstr) (l : list jstr) : jstr :=
  match l with
  | [] => []
  | [x] => x
  | x :: r => x ++ sep ++ join sep r
  end.

(** [s.split('\n')] *)
Fixpoint split_nl (s : jstr) : list jstr :=
  match s with
  | [] => [[]]
  | c :: r =>
      if c =? 10 then [] :: split_nl r
      else match split_nl r with
           | [] => [[c]]
           | x :: xs => (c :: x) :: xs
           end
  end.

(** [s.startsWith(p)] *)
Fixpoint starts_with (p s : jstr) : bool :=
  match p, s with
  | [], _ => true
  | a :: p', c :: s' => (a =? c) && starts_with p' s'
  | _ :: _, [] => false
  end.

(** Leftmost-match search of an unanchored regular expression: the matcher
    is tried at every position from the left, including the end. *)
Fixpoint search {A} (f : jstr -> option A) (s : jstr) : option A :=
  match f s with
  | Some a => Some a
  | None => match s with [] => None | _ :: r => search f r end
  end.

Fixpoint test_at (f : jstr -> bool) (s : jstr) : bool :=
  f s || match s with [] => false | _ :: r => test_at f r end.

(** Value of a string of decimal digits ([parseInt] on [\d+]). *)
Fixpoint digits_value_acc (acc : Z) (ds : jstr) : Z :=
  match ds with
  | [] => acc
  | d :: r => digits_value_acc (acc * 10 + Z.of_N (d - 48))%Z r
  end.

Definition digits_value (ds : jstr) : Z := digits_value_acc 0%Z ds.

(** [parseFloat] on [\d+(\.\d+)?]: integer digits [ip], fraction digits
    [fp]. *)
Definition decimal_value (ip fp : jstr) : Q :=
  Qmake (digits_value (ip ++ fp)) (Z.to_pos (10 ^ Z.of_nat (length fp))).

(** ** Pipeline B: [parseQuantityFromLabel] *)

Record ParsedLabel := mkParsedLabel {
  pl_amount : Q;
  pl_unit : jstr;
  isPackBased : bool
}.

Definition pcs : jstr := Eval cbv in js "pcs"%string.

(** The alternatives of [(g|kg|ml|l|tsp|tbsp|pcs?)], in order; [pcs?] is
    greedy, so [pcs] is tried before [pc]. *)
Definition unit_alternatives : list jstr :=
  Eval cbv in map js ["g"; "kg"; "ml"; "l"; "tsp"; "tbsp"; "pcs"; "pc"]%string.

(** Case-insensitive match of the literal [p] at the start of [s]; returns
    the matched input text and the rest. *)
Fixpoint ci_prefix (p s : jstr) : option (jstr * jstr) :=
  match p, s with
  | [], _ => Some ([], s)
  | a :: p', c :: s' =>
      if ci_eq a c then
        match ci_prefix p' s' with
        | Some (m, r) => Some (c :: m, r)
        | None => None
        end
      else None
  | _ :: _, [] => None
  end.

(** [\d+(?:\.\d+)?] at the start of [s].  The digit runs are greedy and
    the next pattern item never accepts a digit, so no backtracking into
    them can succeed; the fraction is taken whenever a dot is followed by a
    digit, and dropping it leaves a dot that no continuation accepts. *)
Definition number_at (s : jstr) : option (Q * jstr) :=
  let (ip, r) := span is_digit s in
  match ip with
  | [] => None
  | _ :: _ =>
      match r with
      | c :: r' =>
          if c =? 46 then
            let (fp, r2) := span is_digit r' in
            match fp with
            | [] => Some (decimal_value ip [], r)
            | _ :: _ => Some (decimal_value ip fp, r2)
            end
          else Some (decimal_value ip [], r)
      | [] => Some (decimal_value ip [], r)
      end
  end.

(** The first alternative followed by [')']. *)
Fixpoint first_alt (alts : list jstr) (s : jstr) : option jstr :=
  match alts with
  | [] => None
  | a :: al =>
      match ci_prefix a s with
      | Some (m, c :: _) => if c =? 41 then Some m else first_alt al s
      | _ => first_alt al s
      end
  end.

(** [/\((\d+(?:\.\d+)?)\s*(g|kg|ml|l|tsp|tbsp|pcs?)\)/i] anchored at the
    start of [s] ([\s*] is greedy and no unit starts with a space). *)
Definition paren_unit_at (s : jstr) : option (Q * jstr) :=
  match s with
  | c :: r =>
      if c =? 40 then
        match number_at r with
        | Some (v, r1) =>
            match first_alt unit_alternatives (drop_while is_space r1) with
            | Some u => Some (v, u)
            | None => None
            end
        | None => None
        end
      else None
  | [] => None
  end.

(** [/\((\d+(?:\.\d+)?)\)/i] anchored at the start of [s]. *)
Definition paren_num_at (s : jstr) : option Q :=
  match s with
  | c :: r =>
      if c =? 40 then
        match number_at r with
        | Some (v, c' :: _) => if c' =? 41 then Some v else None
        | _ => None
        end
      else None
  | [] => None
  end.

(** [/x\s*(\d+)$/i] anchored at the start of [s]: spaces and digits are
    disjoint, so the greedy runs are the only candidates. *)
Definition x_suffix_at (s : jstr) : option Z :=
  match s with
  | c :: r =>
      if ci_eq 120 c then
        let (ds, r2) := span is_digit (drop_while is_space r) in
        match ds, r2 with
        | _ :: _, [] => Some (digits_value ds)
        | _, _ => None
        end
      else None
  | [] => None
  end.

(** [/^(\d+)\s*x?\s+/i].  After the digits either a space follows (then
    [\s*] and [x?] match empty and [\s+] the space), or an [x] followed by
    a space; every other continuation fails. *)
Definition leading_num (s : jstr) : option Z :=
  let (ds, r) := span is_digit s in
  match ds with
  | [] => None
  | _ :: _ =>
      match r with
      | c :: r' =>
          if is_space c then Some (digits_value ds)
          else if ci_eq 120 c then
            match r' with
            | c2 :: _ => if is_space c2 then Some (digits_value ds) else None
            | [] => None
            end
          else None
      | [] => None
      end
  end.

(** [/\s*x0$/i] at the start of [s]. *)
Definition x0_at (s : jstr) : bool :=
  match drop_while is_space s with
  | [x; z] => ci_eq 120 x && (z =? 48)
  | _ => false
  end.

(** [label.replace(/\s*x0$/i, '')]: the leftmost match is removed. *)
Fixpoint strip_x0 (s : jstr) : jstr :=
  if x0_at s then []
  else match s with
       | [] => []
       | c :: r => c :: strip_x0 r
       end.

Definition default_parse : ParsedLabel := mkParsedLabel 1 pcs false.

Definition parseQuantityFromLabel (label : jstr) : ParsedLabel :=
  let cleanedLabel := strip_x0 label in
  match search paren_unit_at cleanedLabel with
  | Some (a, u) => mkParsedLabel a (ascii_lower u) true
  | None =>
      match search paren_num_at cleanedLabel with
      | Some a => mkParsedLabel a pcs true
      | None =>
          match search x_suffix_at cleanedLabel with
          | Some n => mkParsedLabel (inject_Z n) pcs false
          | None =>
              match leading_num cleanedLabel with
              | Some n => mkParsedLabel (inject_Z n) pcs true
              | None => default_parse
              end
          end
      end
  end.

(** ** Pipeline B: [combineIngredients] *)

(** One entry of an [ingredients] array of the input. *)
Record Ingredient := mkIngredient {
  ing_id : jstr;
  ing_name : jstr;
  ing_label : jstr;
  ing_imageUrl : option jstr;
  quantity : Q
}.

Record IngredientList := mkIngredientList {
  recipeTitle : jstr;
  ingredients : list Ingredient
}.

(** An element of [group.items]. *)
Record Item := mkItem {
  label : jstr;
  imageUrl : option jstr;
  parsedAmount : Q;
  it_unit : jstr;
  portionQuantity : Q;
  it_recipeTitle : jstr
}.

Record ParsedQuantity := mkParsedQuantity {
  amount : Q;
  pq_unit : jstr;
  originalLabel : jstr
}.

Record CombinedIngredient := mkCombinedIngredient {
  name : jstr;
  displayName : jstr;
  quantities : list ParsedQuantity;
  totalAmount : Q;
  ci_unit : jstr;
  ci_imageUrl : option jstr;
  recipeCount : nat
}.

(** A JavaScript [Map] keyed by strings, in insertion order. *)
Definition JMap (V : Type) := list (jstr * V).

(** [if (!m.has(k)) m.set(k, []); m.get(k)!.push(v)] *)
Fixpoint map_push {V} (k : jstr) (v : V) (m : JMap (list V)) : JMap (list V) :=
  match m with
  | [] => [(k, [v])]
  | (k', vs) :: m' =>
      if jstr_eq_dec k k' then (k', vs ++ [v]) :: m'
      else (k', vs) :: map_push k v m'
  end.

(** The distinct elements of a list in order of first occurrence: the
    iteration order of [new Set(l)]. *)
Definition nodup_first (l : list jstr) : list jstr :=
  fold_left (fun acc x => if existsb (jstr_eqb x) acc then acc else acc ++ [x]) l [].

(** [new Set(l).size] *)
Definition set_size (l : list jstr) : nat := length (nodup_first l).

Definition measuredUnits : list jstr :=
  Eval cbv in map js ["g"; "kg"; "ml"; "l"; "tsp"; "tbsp"]%string.

(** The item pushed for one occurrence [ing] of recipe [recipeTitle]. *)
Definition mk_item (title : jstr) (ing : Ingredient) : Item :=
  let p := parseQuantityFromLabel (ing_label ing) in
  let total :=
    if isPackBased p then (pl_amount p * quantity ing)%Q else quantity ing in
  mkItem (ing_label ing) (ing_imageUrl ing) total
    (if existsb (jstr_eqb (ascii_lower (pl_unit p))) measuredUnits
     then pl_unit p else pcs)
    (quantity ing) title.

(** The first loop: [grouped], keyed by ingredient name.  The [name] field
    of a group always equals its key and the second loop reads the key. *)
Definition group_by_name (lists : list IngredientList) : JMap (list Item) :=
  fold_left
    (fun grouped il =>
       fold_left
         (fun grouped ing => map_push (ing_name ing) (mk_item (recipeTitle il) ing) grouped)
         (ingredients il) grouped)
    lists [].

(** [byUnit], keyed by [item.unit.toLowerCase()]. *)
Definition group_by_unit (items : list Item) : JMap (list Item) :=
  fold_left (fun byUnit it => map_push (ascii_lower (it_unit it)) it byUnit) items [].

(** [items.reduce((sum, item) => sum + item.parsedAmount, 0)] *)
Definition sum_amounts (items : list Item) : Q :=
  fold_left (fun s it => (s + parsedAmount it)%Q) items 0%Q.

Definition to_quantity (it : Item) : ParsedQuantity :=
  mkParsedQuantity (parsedAmount it) (it_unit it) (label it).

Definition first_label (items : list Item) : jstr :=
  match items with it :: _ => label it | [] => [] end.

Definition first_imageUrl (items : list Item) : option jstr :=
  match items with it :: _ => imageUrl it | [] => None end.

(** [new Set(items.map(i => i.recipeTitle)).size] *)
Definition items_recipeCount (items : list Item) : nat :=
  set_size (map it_recipeTitle items).

(** [` (${unit})`] *)
Definition unit_suffix (u : jstr) : jstr := js " ("%string ++ u ++ js ")"%string.

Section Aggregation.

(** [String.prototype.toUpperCase] and [String.prototype.localeCompare]
    are left abstract. *)
Variable toUpperCase : jstr -> jstr.
Variable localeCompare : jstr -> jstr -> Z.

(** [name.charAt(0).toUpperCase() + name.slice(1)] *)
Definition getCleanDisplayName (nm lbl : jstr) : jstr :=
  toUpperCase (firstn 1 nm) ++ skipn 1 nm.

Definition combine_group (entry : jstr * list Item) : list CombinedIngredient :=
  let (nm, items) := entry in
  let byUnit := group_by_unit items in
  if Nat.eqb (length byUnit) 1 then
    match byUnit with
    | (u, its) :: _ =>
        [mkCombinedIngredient nm (getCleanDisplayName nm (first_label its))
           (map to_quantity its) (sum_amounts its) u (first_imageUrl its)
           (items_recipeCount its)]
    | [] => []
    end
  else
    map (fun '(u, its) =>
           mkCombinedIngredient (nm ++ unit_suffix u)
             (getCleanDisplayName nm (first_label its) ++ unit_suffix u)
             (map to_quantity its) (sum_amounts its) u (first_imageUrl its)
             (items_recipeCount its))
      byUnit.

(** [Array.prototype.sort] (stable) with
    [(a, b) => a.displayName.localeCompare(b.displayName)]. *)
Fixpoint insert_by_name (x : CombinedIngredient) (l : list CombinedIngredient)
  : list CombinedIngredient :=
  match l with
  | [] => [x]
  | y :: r =>
      if (localeCompare (displayName x) (displayName y) <? 0)%Z then x :: l
      else y :: insert_by_name x r
  end.

Definition sort_by_displayName (l : list CombinedIngredient) : list CombinedIngredient :=
  fold_left (fun acc x => insert_by_name x acc) l [].

Definition combineIngredients (lists : list IngredientList) : list CombinedIngredient :=
  sort_by_displayName (flat_map combine_group (group_by_name lists)).

End Aggregation.

Definition ascii_upper_cu (c : N) : N := if is_lower_ascii c then c - 32 else c.

Definition demo_lists : list IngredientList :=
  [mkIngredientList (js "Curry"%string)
     [mkIngredient (js "1"%string) (js "garlic"%string) (js "Garlic (20g)"%string) None 2;
      mkIngredient (js "2"%string) (js "chicken"%string) (js "Chicken breast strips (250g)"%string) None 3];
   mkIngredientList (js "Stew"%string)
     [mkIngredient (js "3"%string) (js "garlic"%string) (js "Garlic clove x3"%string) None 3;
      mkIngredient (js "4"%string) (js "potato"%string) (js "White potato x4"%string) None 4]].

(** ** Pipeline A: title and index predicates *)

(** [/·\s*\d+\s*$/] at the start of [s] (spaces and digits are disjoint,
    so the greedy runs are the only candidates). *)
Definition index_entry_at (s : jstr) : bool :=
  match s with
  | c :: r =>
      (c =? 183) &&
      (let (ds, r2) := span is_digit (drop_while is_space r) in
       match ds, drop_while is_space r2 with
       | _ :: _, [] => true
       | _, _ => false
       end)
  | [] => false
  end.

Definition isIndexEntry (line : jstr) : bool := test_at index_entry_at line.

(** The marker pattern of [isRecipeTitle] and [cleanTitle] (spaces, [XE],
    spaces, a double-quoted text without double quotes, spaces) at the start
    of [s]; returns the rest after the match.  Each greedy run is followed
    by a character it cannot consume ([X] or a double quote), so no
    backtracking applies. *)
Definition xe_at (s : jstr) : option jstr :=
  match drop_while is_space s with
  | x :: e :: r =>
      if (x =? 88) && (e =? 69) then
        match drop_while is_space r with
        | q :: r1 =>
            if q =? 34 then
              match snd (span (fun c => negb (c =? 34)) r1) with
              | q2 :: r3 => if q2 =? 34 then Some (drop_while is_space r3) else None
              | [] => None
              end
            else None
        | [] => None
        end
      else None
  | _ => None
  end.

(** The global replacement of that marker pattern by the empty string: after a match the scan resumes
    where it ended; every match consumes at least four code units, so
    [length s + 1] steps suffice. *)
Fixpoint strip_xe_go (fuel : nat) (s : jstr) : jstr :=
  match fuel with
  | O => s
  | S f =>
      match xe_at s with
      | Some rest => strip_xe_go f rest
      | None => match s with [] => [] | c :: r => c :: strip_xe_go f r end
      end
  end.

Definition strip_xe (s : jstr) : jstr := strip_xe_go (S (length s)) s.

(** [[A-ZÁÉÍÓÚÑÜ]] and [[a-záéíóúñü]] *)
Definition is_title_upper (c : N) : bool :=
  is_upper_ascii c || existsb (N.eqb c) [193; 201; 205; 211; 218; 209; 220].
Definition is_title_lower (c : N) : bool :=
  is_lower_ascii c || existsb (N.eqb c) [225; 233; 237; 243; 250; 241; 252].

(** [upperCount / (upperCount + lowerCount) >= 0.7], compared exactly. *)
Definition isRecipeTitle (line : jstr) : bool :=
  let cleaned := trim (strip_xe line) in
  if Nat.ltb (length cleaned) 3 then false
  else if isIndexEntry line then false
  else
    let letters :=
      filter (fun c => is_title_upper c || (c =? 32) || is_title_lower c) cleaned in
    let upperCount := length (filter is_title_upper letters) in
    let lowerCount := length (filter is_title_lower letters) in
    Nat.ltb 0 upperCount &&
    Qle_bool (7 # 10) (Z.of_nat upperCount # Pos.of_nat (upperCount + lowerCount)).

(** [s.replace(/p+/g, rep)]: every maximal run of [p] characters becomes
    one [rep]; [in_run] says whether the previous character was in a run. *)
Fixpoint collapse_runs (p : N -> bool) (rep : N) (in_run : bool) (s : jstr) : jstr :=
  match s with
  | [] => []
  | c :: r =>
      if p c then
        if in_run then collapse_runs p rep true r
        else rep :: collapse_runs p rep true r
      else c :: collapse_runs p rep false r
  end.

Definition cleanTitle (title : jstr) : jstr :=
  trim (collapse_runs is_space 32 false (strip_xe title)).

Section Slug.

(** [String.prototype.toLowerCase] and [normalize('NFD')] are left
    abstract: the claims about slugs hold whatever they return. *)
Variable toLowerCase : jstr -> jstr.
Variable normalizeNFD : jstr -> jstr.

(** [/[^a-z0-9\s-]/g] removes every character outside this class. *)
Definition slug_keep (c : N) : bool :=
  is_lower_ascii c || is_digit c || is_space c || (c =? 45).

(** [s.replace(/^-|-$/g, '')]: a leading hyphen is removed, then a
    trailing hyphen of what remains. *)
Definition trim_hyphens (s : jstr) : jstr :=
  let s1 := match s with c :: r => if c =? 45 then r else s | [] => [] end in
  match rev s1 with
  | c :: r => if c =? 45 then rev r else s1
  | [] => s1
  end.

Definition slugify (title : jstr) : jstr :=
  let s := normalizeNFD (toLowerCase title) in
  let s := filter (fun c => negb ((768 <=? c) && (c <=? 879))) s in
  let s := filter slug_keep s in
  let s := collapse_runs is_space 45 false s in
  let s := collapse_runs (N.eqb 45) 45 false s in
  trim_hyphens s.

End Slug.

Definition dq : jstr := [34].

(** ** Pipeline A: [looksLikeIngredient] *)

(** [\w] and the word boundary [\b] (ASCII only without the [u] flag). *)
Definition is_word (c : N) : bool :=
  is_upper_ascii c || is_lower_ascii c || is_digit c || (c =? 95).

Definition is_word_opt (c : option N) : bool :=
  match c with Some c => is_word c | None => false end.

Definition boundary (prev next : option N) : bool :=
  xorb (is_word_opt prev) (is_word_opt next).

Fixpoint last_opt (s : jstr) : option N :=
  match s with [] => None | [c] => Some c | _ :: r => last_opt r end.

(** Test of an unanchored pattern that needs the preceding character. *)
Fixpoint test_from (f : option N -> jstr -> bool) (prev : option N) (s : jstr) : bool :=
  f prev s || match s with [] => false | c :: r => test_from f (Some c) r end.

(** [literal\b] under [/i] at the start of [s] (the literal is not
    empty, so the boundary is between its last character and the next). *)
Definition word_end_at (w s : jstr) : bool :=
  match ci_prefix w s with
  | Some (m, r) => boundary (last_opt m) (hd_error r)
  | None => false
  end.

Definition methodVerbs : list jstr :=
  Eval cbv in map js
    ["cocinar"; "freír"; "hervir"; "mezclar"; "agregar"; "añadir"; "poner"; "dejar";
     "preparar"; "calentar"; "cortar"; "licuar"; "batir"; "servir"; "retirar"; "tapar";
     "hornear"; "precalentar"; "sazonar"; "condimentar"; "espolvorear"; "vaciar"; "unir";
     "derretir"; "dorar"; "saltear"; "revolver"; "colar"; "rallar"; "picar"]%string.

(** [/\b(cocinar|...|picar)\b/i] *)
Definition verb_at (prev : option N) (s : jstr) : bool :=
  boundary prev (hd_error s) && existsb (fun v => word_end_at v s) methodVerbs.

(** The unit alternatives of the measurement pattern, each [x?] expanded
    into its two forms. *)
Definition measurementUnits : list jstr :=
  Eval cbv in map js
    ["T"; "CH"; "ch"; "taza"; "tazas"; "grm"; "grms"; "gramo"; "gramos"; "kg"; "ml";
     "litro"; "cucharada"; "cucharadita"; "pizca"; "unidad"; "unidades"; "pcs";
     "diente"; "dientes"; "ramita"; "ramitas"; "hoja"; "hojas"; "rebanada";
     "rebanadas"; "tajada"; "tajadas"; "rodaja"; "rodajas"]%string.

(** [½ ¼ ¾ ⅓ ⅔] *)
Definition is_fraction (c : N) : bool :=
  existsb (N.eqb c) [189; 188; 190; 8531; 8532].

(** [/\b(\d+|½|¼|¾|⅓|⅔)\s*(units)\b/i].  The digit run is greedy and a
    unit starts with a letter, so a shorter run cannot lead to a match; the
    same holds for [\s*]. *)
Definition measurement_at (prev : option N) (s : jstr) : bool :=
  boundary prev (hd_error s) &&
  match s with
  | c :: r =>
      let after_num :=
        if is_digit c then Some (snd (span is_digit r))
        else if is_fraction c then Some r
        else None in
      match after_num with
      | Some r1 => existsb (fun u => word_end_at u (drop_while is_space r1)) measurementUnits
      | None => false
      end
  | [] => false
  end.

Definition looksLikeIngredient (line : jstr) : bool :=
  let trimmed := trim line in
  match trimmed with
  | [] => false
  | c :: _ =>
      if Nat.ltb 80 (length trimmed) then false
      else if test_from verb_at None trimmed then false
      else if is_digit c || (c =? 8226) || (c =? 45) || (c =? 42) then true
      else if test_from measurement_at None trimmed then true
      else if Nat.ltb (length trimmed) 50 && negb (existsb (N.eqb 46) trimmed) then true
      else false
  end.

(** ** Pipeline A: [separateContent] *)

Record SepState := mkSepState {
  ingredientLines : list jstr;
  methodLines : list jstr;
  foundBlankLine : bool;
  inMethod : bool
}.

Definition sep_init : SepState := mkSepState [] [] false false.

(** One iteration of the [for (const line of lines)] loop. *)
Definition sep_step (st : SepState) (line : jstr) : SepState :=
  let trimmed := trim line in
  match trimmed with
  | [] =>
      if Nat.ltb 0 (length (ingredientLines st)) && negb (inMethod st)
      then mkSepState (ingredientLines st) (methodLines st) true (inMethod st)
      else st
  | _ :: _ =>
      let inM :=
        if foundBlankLine st && negb (inMethod st) then
          if negb (looksLikeIngredient trimmed) then true else inMethod st
        else inMethod st in
      if inM then
        mkSepState (ingredientLines st) (methodLines st ++ [trimmed]) (foundBlankLine st) true
      else if looksLikeIngredient trimmed then
        mkSepState (ingredientLines st ++ [trimmed]) (methodLines st) (foundBlankLine st) inM
      else if Nat.eqb (length (ingredientLines st)) 0 then
        mkSepState (ingredientLines st) (methodLines st ++ [trimmed]) (foundBlankLine st) true
      else
        mkSepState (ingredientLines st) (methodLines st ++ [trimmed]) (foundBlankLine st) true
  end.

Definition sep_run (st : SepState) (lines : list jstr) : SepState :=
  fold_left sep_step lines st.

Inductive Separated :=
| SepSplit (ingredientes metodo : jstr)
| SepContent (content : jstr).

Definition nl : jstr := [10].
Definition nlnl : jstr := [10; 10].

Definition separateContent (content : jstr) : Separated :=
  let st := sep_run sep_init (split_nl content) in
  let hasIngredients := Nat.leb 2 (length (ingredientLines st)) in
  let hasMethod := Nat.leb 1 (length (methodLines st)) in
  if hasIngredients && hasMethod
  then SepSplit (join nl (ingredientLines st)) (join nlnl (methodLines st))
  else SepContent (trim content).

(** ** Pipeline A: [parseRecipes] and the mapping of [main] *)

Record RawRecipe := mkRawRecipe {
  title : jstr;
  slug : jstr;
  rawContent : jstr
}.

Record ParseState := mkParseState {
  recipes : list RawRecipe;
  currentRecipe : option RawRecipe;
  inIndex : bool
}.

(** A processed recipe; an absent property is [None]. *)
Record Receta := mkReceta {
  rc_title : jstr;
  rc_slug : jstr;
  ingredientes : option jstr;
  metodo : option jstr;
  content : option jstr
}.

Definition INDEX : jstr := Eval cbv in js "INDEX"%string.

(** [/^[A-Z]$/] *)
Definition single_upper (s : jstr) : bool :=
  match s with [c] => is_upper_ascii c | _ => false end.

(** [if (currentRecipe && currentRecipe.rawContent.trim()) recipes.push(currentRecipe)] *)
Definition save_current (rs : list RawRecipe) (cur : option RawRecipe) : list RawRecipe :=
  match cur with
  | Some r => if is_blank (rawContent r) then rs else rs ++ [r]
  | None => rs
  end.

Section Recipes.

Variable toLowerCase : jstr -> jstr.
Variable normalizeNFD : jstr -> jstr.

(** One iteration of the loop of [parseRecipes]. *)
Definition parse_step (st : ParseState) (line : jstr) : ParseState :=
  let trimmed := trim line in
  if is_blank line && match currentRecipe st with None => true | Some _ => false end
  then st
  else if inIndex st && (isIndexEntry trimmed || single_upper trimmed
                         || starts_with INDEX trimmed)
  then st
  else if inIndex st && negb (isRecipeTitle trimmed) then st
  else if isRecipeTitle trimmed then
    let t := cleanTitle trimmed in
    mkParseState (save_current (recipes st) (currentRecipe st))
      (Some (mkRawRecipe t (slugify toLowerCase normalizeNFD t) [])) false
  else
    match currentRecipe st with
    | Some r =>
        mkParseState (recipes st)
          (Some (mkRawRecipe (title r) (slug r) (rawContent r ++ line ++ nl))) false
    | None => mkParseState (recipes st) None false
    end.

Definition parseRecipes (text : jstr) : list RawRecipe :=
  let st := fold_left parse_step (split_nl text) (mkParseState [] None true) in
  save_current (recipes st) (currentRecipe st).

(** [{ title, slug, ...separateContent(recipe.rawContent) }] *)
Definition process_recipe (r : RawRecipe) : Receta :=
  match separateContent (rawContent r) with
  | SepSplit i m => mkReceta (title r) (slug r) (Some i) (Some m) None
  | SepContent c => mkReceta (title r) (slug r) None None (Some c)
  end.

Definition processedRecipes (text : jstr) : list Receta :=
  map process_recipe (parseRecipes text).

End Recipes.

Definition demo_text : jstr :=
  Eval cbv in
  join nl (map js
    ["INDEX"; "A"; "ARROZ CON POLLO · 3"; ""; "ARROZ CON POLLO";
     "2 tazas de arroz"; "1 pollo"; ""; "Cocinar el arroz con el pollo durante 20 minutos.";
     "SOPA"; "Una sopa muy sencilla de hacer en casa."]%string).

(** ** Specification side of the aggregation

    The following definitions follow the spec's description of the
    aggregate (one row per ingredient name and normalised unit), to be
    compared with [combineIngredients]. *)

(** The content of a [Map] filled by pushing [val x] under [key x] for
    each [x] in order: one entry per distinct key, in order of first
    occurrence, holding the values of that key in order. *)
Definition group_spec {A V} (key : A -> jstr) (val : A -> V) (xs : list A)
  : JMap (list V) :=
  map (fun k => (k, map val (filter (fun x => jstr_eqb (key x) k) xs)))
    (nodup_first (map key xs)).

(** Every ingredient occurrence with the title of its recipe, in input
    order. *)
Definition occurrences (lists : list IngredientList) : list (jstr * Ingredient) :=
  flat_map (fun il => map (fun ing => (recipeTitle il, ing)) (ingredients il)) lists.

Definition ingredient_names (lists : list IngredientList) : list jstr :=
  nodup_first (map (fun p => ing_name (snd p)) (occurrences lists)).

(** The items of the occurrences named [n]. *)
Definition occ_items (lists : list IngredientList) (n : jstr) : list Item :=
  map (fun p => mk_item (fst p) (snd p))
    (filter (fun p => jstr_eqb (ing_name (snd p)) n) (occurrences lists)).

Definition norm_unit (it : Item) : jstr := ascii_lower (it_unit it).

Definition name_units (lists : list IngredientList) (n : jstr) : list jstr :=
  nodup_first (map norm_unit (occ_items lists n)).

Definition unit_items (lists : list IngredientList) (n u : jstr) : list Item :=
  filter (fun it => jstr_eqb (norm_unit it) u) (occ_items lists n).

(** The row of name [n] and unit [u]: the name suffixed with the unit
    exactly when the name spans several units; the display name is the
    name with its first character upper-cased (and the same suffix); the
    quantities are those of the group, the total their sum, and the recipe
    count the number of distinct recipe titles of the group. *)
Definition expected_record (toUpperCase : jstr -> jstr) (lists : list IngredientList)
    (n u : jstr) : CombinedIngredient :=
  let its := unit_items lists n u in
  let sfx := if Nat.eqb (length (name_units lists n)) 1 then [] else unit_suffix u in
  mkCombinedIngredient (n ++ sfx) (toUpperCase (firstn 1 n) ++ skipn 1 n ++ sfx)
    (map to_quantity its) (sum_amounts its) u (first_imageUrl its)
    (set_size (map it_recipeTitle its)).

(** A code-unit order, used as [localeCompare] in the examples. *)
Fixpoint cu_compare (a b : jstr) : Z :=
  match a, b with
  | [], [] => 0%Z
  | [], _ :: _ => (-1)%Z
  | _ :: _, [] => 1%Z
  | x :: a', y :: b' =>
      match N.compare x y with
      | Eq => cu_compare a' b'
      | Lt => (-1)%Z
      | Gt => 1%Z
      end
  end.

(** The seven canonical unit tokens. *)
Definition canonical_units : list jstr :=
  Eval cbv in map js ["g"; "kg"; "ml"; "l"; "tsp"; "tbsp"; "pcs"]%string.

(** The characters [[a-z0-9-]]. *)
Definition slug_char (c : N) : bool := is_lower_ascii c || is_digit c || (c =? 45).

(** ** Test data *)

Definition example2_body : jstr :=
  Eval cbv in
  concat (map (fun l => js l ++ nl)
    ["2 tazas de harina"; "1 taza de azúcar"; "";
     "Mezclar los ingredientes secos."; "Hornear a 180 grados."]%string).


Definition chicken_occurrence : Ingredient :=
  mkIngredient (js "2"%string) (js "chicken"%string)
    (js "Chicken breast strips (250g)"%string) None 3.

Definition potato_occurrence : Ingredient :=
  mkIngredient (js "4"%string) (js "potato"%string) (js "White potato x4"%string) None 4.

(** ** Pipeline B: [areUnitsCompatible] and [formatQuantity] *)

Section Units.

(** [String.prototype.toLowerCase], left abstract. *)
Variable toLowerCase : jstr -> jstr.

(** The local [normalizeUnit] of [areUnitsCompatible]. *)
Definition normalizeUnit (u : jstr) : jstr :=
  let lower := toLowerCase u in
  if jstr_eqb lower (js "pc"%string) || jstr_eqb lower (js "pcs"%string)
     || jstr_eqb lower (js "piece"%string) || jstr_eqb lower (js "pieces"%string)
  then js "pcs"%string
  else if jstr_eqb lower (js "gram"%string) || jstr_eqb lower (js "grams"%string)
  then js "g"%string
  else if jstr_eqb lower (js "kilogram"%string) || jstr_eqb lower (js "kilograms"%string)
  then js "kg"%string
  else if jstr_eqb lower (js "milliliter"%string) || jstr_eqb lower (js "milliliters"%string)
          || jstr_eqb lower (js "millilitre"%string)
  then js "ml"%string
  else if jstr_eqb lower (js "liter"%string) || jstr_eqb lower (js "liters"%string)
          || jstr_eqb lower (js "litre"%string)
  then js "l"%string
  else lower.

Definition areUnitsCompatible (unit1 unit2 : jstr) : bool :=
  jstr_eqb (normalizeUnit unit1) (normalizeUnit unit2).

End Units.

(** Decimal digits of a [Decimal.uint]. *)
Fixpoint uint_digits (d : Decimal.uint) : jstr :=
  match d with
  | Decimal.Nil => []
  | Decimal.D0 r => 48 :: uint_digits r
  | Decimal.D1 r => 49 :: uint_digits r
  | Decimal.D2 r => 50 :: uint_digits r
  | Decimal.D3 r => 51 :: uint_digits r
  | Decimal.D4 r => 52 :: uint_digits r
  | Decimal.D5 r => 53 :: uint_digits r
  | Decimal.D6 r => 54 :: uint_digits r
  | Decimal.D7 r => 55 :: uint_digits r
  | Decimal.D8 r => 56 :: uint_digits r
  | Decimal.D9 r => 57 :: uint_digits r
  end.

(** [Number.prototype.toString] of an integral value below [1e21] in
    magnitude: an optional minus sign and the decimal digits. *)
Definition Z_to_jstr (z : Z) : jstr :=
  if (z <? 0)%Z then 45 :: uint_digits (N.to_uint (Z.abs_N z))
  else uint_digits (N.to_uint (Z.to_N z)).

(** [Math.round]: the nearest integer, halves rounded up. *)
Definition math_round (x : Q) : Z := Qfloor (x + (1 # 2))%Q.

(** [x % 1 === 0] *)
Definition is_whole (x : Q) : bool := (Qnum x mod Zpos (Qden x) =? 0)%Z.

(** [x.toString()] for a whole [x]. *)
Definition whole_toString (x : Q) : jstr := Z_to_jstr (Qnum x / Zpos (Qden x))%Z.

Section Format.

(** [Number.prototype.toFixed(1)], left abstract: on a double its result
    depends on the binary value of the argument. *)
Variable toFixed1 : Q -> jstr.

(** [Math.round(amount * 100) / 100] *)
Definition rounded (a : Q) : Q := Qmake (math_round (a * 100)%Q) 100.

(** [rounded % 1 === 0 ? rounded.toString() : rounded.toFixed(1)] *)
Definition displayAmount (a : Q) : jstr :=
  let r := rounded a in
  if is_whole r then whole_toString r else toFixed1 r.

Definition formatQuantity (a : Q) (u : jstr) : jstr :=
  let r := rounded a in
  if jstr_eqb u pcs || jstr_eqb u (js "pc"%string) then
    if Qeq_bool r 1 then js "1"%string else displayAmount a
  else displayAmount a ++ u.

End Format.

(** ** [main]: the index, the statistics and the recipe files *)

Record IndexEntry := mkIndexEntry {
  ie_title : jstr;
  ie_slug : jstr
}.

(** [Array.prototype.sort] (stable) with
    [(a, b) => cmp(key(a), key(b))], as an insertion sort. *)
Fixpoint insert_by {A} (key : A -> jstr) (cmp : jstr -> jstr -> Z) (x : A) (l : list A)
  : list A :=
  match l with
  | [] => [x]
  | y :: r =>
      if (cmp (key x) (key y) <? 0)%Z then x :: l
      else y :: insert_by key cmp x r
  end.

Definition sort_by {A} (key : A -> jstr) (cmp : jstr -> jstr -> Z) (l : list A) : list A :=
  fold_left (fun acc x => insert_by key cmp x acc) l [].

(** [processedRecipes.map(r => ({ title: r.title, slug: r.slug }))]
    sorted with [a.title.localeCompare(b.title, 'es')] ([localeCompare_es]
    is left abstract). *)
Definition mainIndex (localeCompare_es : jstr -> jstr -> Z) (procs : list Receta)
  : list IndexEntry :=
  sort_by ie_title localeCompare_es
    (map (fun r => mkIndexEntry (rc_title r) (rc_slug r)) procs).

(** Truthiness of an optional string property. *)
Definition truthy (o : option jstr) : bool :=
  match o with Some (_ :: _) => true | _ => false end.

(** [processedRecipes.filter(r => r.ingredientes).length] *)
Definition withSeparation (procs : list Receta) : nat :=
  length (filter (fun r => truthy (ingredientes r)) procs).

(** [processedRecipes.filter(r => r.content).length] *)
Definition withoutSeparation (procs : list Receta) : nat :=
  length (filter (fun r => truthy (content r)) procs).

(** The directory [data/recetas] as seen by [main] and by the page: the
    file [<slug>.json] maps to the recipe it holds.
    [JSON.parse(JSON.stringify(recipe))] gives back the recipe, absent
    properties staying absent, so a file is modelled by its recipe. *)
Definition Dir := list (jstr * Receta).

(** [fs.writeFileSync]: creates or overwrites the file. *)
Fixpoint dir_write (d : Dir) (k : jstr) (r : Receta) : Dir :=
  match d with
  | [] => [(k, r)]
  | (k', r') :: d' =>
      if jstr_eq_dec k k' then (k, r) :: d' else (k', r') :: dir_write d' k r
  end.

(** [fs.readFileSync]: [None] when the file does not exist. *)
Fixpoint dir_read (d : Dir) (k : jstr) : option Receta :=
  match d with
  | [] => None
  | (k', r) :: d' => if jstr_eq_dec k k' then Some r else dir_read d' k
  end.

(** The loop [for (const recipe of processedRecipes) fs.writeFileSync(...)]
    of [main], starting from the directory as it was before the run. *)
Definition writeRecipeFiles (d : Dir) (procs : list Receta) : Dir :=
  fold_left (fun d r => dir_write d (rc_slug r) r) procs d.

(** [getReceta]: the parsed file, or [null] when reading fails. *)
Definition getReceta (d : Dir) (slug : jstr) : option Receta := dir_read d slug.

(** ** The recipe page *)

(** What [RecetaPage] renders: [notFound()], a runtime error, the two
    sections (title, one list item per ingredient line, one paragraph per
    method paragraph), or the fallback (title, and per content line
    whether it gets the [h-4] spacer class and the text shown). *)
Inductive PageView :=
| PageNotFound
| PageError
| PageSplit (t : jstr) (items paragraphs : list jstr)
| PageContent (t : jstr) (lines : list (bool * jstr)).

(** [s.split('\n\n')]: the separator occurrences are taken from the left
    without overlap. *)
Fixpoint split_nlnl (s : jstr) : list jstr :=
  match s with
  | [] => [[]]
  | c :: r =>
      match r with
      | c2 :: r2 =>
          if (c =? 10) && (c2 =? 10) then [] :: split_nlnl r2
          else match split_nlnl r with
               | [] => [[c]]
               | x :: xs => (c :: x) :: xs
               end
      | [] => [[c]]
      end
  end.

Definition nbsp : jstr := [160].

(** One line of the fallback: [line.trim() === ''] selects the spacer
    class, and [line || '\u00A0'] is shown. *)
Definition content_line (line : jstr) : bool * jstr :=
  (is_blank line, match line with [] => nbsp | _ => line end).

(** The body of [RecetaPage] once [receta] is found. *)
Definition recipe_view (r : Receta) : PageView :=
  if truthy (ingredientes r) && truthy (metodo r) then
    match ingredientes r, metodo r with
    | Some i, Some m => PageSplit (rc_title r) (split_nl i) (split_nlnl m)
    | _, _ => PageError
    end
  else
    match content r with
    | Some c => PageContent (rc_title r) (map content_line (split_nl c))
    | None => PageError
    end.

Definition RecetaPage (d : Dir) (slug : jstr) : PageView :=
  match getReceta d slug with
  | None => PageNotFound
  | Some r => recipe_view r
  end.

(** ** Pipeline B with IEEE-754 doubles

    The numbers of [parseQuantityFromLabel] and [combineIngredients] as
    the binary64 doubles JavaScript computes with, on the kernel's primitive
    floats: [parseFloat] and [parseInt] round the exact value of the
    matched digits to the nearest double, [amount * ing.quantity] and
    [sum + item.parsedAmount] round each result.  The string matching and
    the grouping are those of the definitions above. *)
Module Dbl.

Import PrimFloat.

(** [a / b] rounded to the nearest integer, ties to even ([0 <= a],
    [0 < b]). *)
Definition round_div (a b : Z) : Z :=
  let (q, r) := Z.div_eucl a b in
  match Z.compare (2 * r) b with
  | Lt => q
  | Gt => q + 1
  | Eq => if Z.even q then q else q + 1
  end%Z.

(** The double nearest to a non-negative rational, ties to even; from
    [2^1024 - 2^970] on, [Infinity].  This is the conversion of the
    mathematical value of a digit string to a Number by [parseFloat] and
    [parseInt] (correctly rounded, as V8 does). *)
Definition of_Q (x : Q) : float :=
  let a := Qnum x in
  let b := Zpos (Qden x) in
  if (a <=? 0)%Z then 0%float
  else
    let e0 := (Z.log2 a - Z.log2 b - 52)%Z in
    (* [2^52 <= a / (b * 2^e) < 2^53] *)
    let ge e := if (0 <=? e)%Z then (2 ^ 52 * b * 2 ^ e <=? a)%Z
                else (2 ^ 52 * b <=? a * 2 ^ (- e))%Z in
    let e1 := if ge e0 then e0 else (e0 - 1)%Z in
    let e := Z.max e1 (-1074) in
    let m := if (0 <=? e)%Z then round_div a (b * 2 ^ e)
             else round_div (a * 2 ^ (- e)) b in
    FloatOps.Z.ldexp (of_uint63 (Uint63Axioms.of_Z m)) e.

(** The exact value of a finite double; [None] for [NaN] and the
    infinities. *)
Definition to_Q (f : float) : option Q :=
  match FloatOps.Prim2SF f with
  | SpecFloat.S754_zero _ => Some 0%Q
  | SpecFloat.S754_finite s m e =>
      let v := if (0 <=? e)%Z then inject_Z (Zpos m * 2 ^ e)
               else Qmake (Zpos m) (Z.to_pos (2 ^ (- e))) in
      Some (if s then (- v)%Q else v)
  | _ => None
  end.

(** The value of the label's number, its unit and its flag, as
    [parseQuantityFromLabel] above finds them. *)
Definition parse_exact (lbl : jstr) : Q * jstr * bool :=
  let p := parseQuantityFromLabel lbl in (pl_amount p, pl_unit p, isPackBased p).

Record ParsedLabel := mkParsedLabel {
  pl_amount : float;
  pl_unit : jstr;
  isPackBased : bool
}.

Definition parseQuantityFromLabel (lbl : jstr) : ParsedLabel :=
  let '(a, u, pb) := parse_exact lbl in mkParsedLabel (of_Q a) u pb.

Record Ingredient := mkIngredient {
  ing_id : jstr;
  ing_name : jstr;
  ing_label : jstr;
  ing_imageUrl : option jstr;
  quantity : float
}.

Record IngredientList := mkIngredientList {
  recipeTitle : jstr;
  ingredients : list Ingredient
}.

Record Item := mkItem {
  label : jstr;
  imageUrl : option jstr;
  parsedAmount : float;
  it_unit : jstr;
  portionQuantity : float;
  it_recipeTitle : jstr
}.

Record ParsedQuantity := mkParsedQuantity {
  amount : float;
  pq_unit : jstr;
  originalLabel : jstr
}.

Record CombinedIngredient := mkCombinedIngredient {
  name : jstr;
  displayName : jstr;
  quantities : list ParsedQuantity;
  totalAmount : float;
  ci_unit : jstr;
  ci_imageUrl : option jstr;
  recipeCount : nat
}.

Definition mk_item (title : jstr) (ing : Ingredient) : Item :=
  let p := parseQuantityFromLabel (ing_label ing) in
  let total :=
    if isPackBased p then (pl_amount p * quantity ing)%float else quantity ing in
  mkItem (ing_label ing) (ing_imageUrl ing) total
    (if existsb (jstr_eqb (ascii_lower (pl_unit p))) measuredUnits
     then pl_unit p else pcs)
    (quantity ing) title.

Definition group_by_name (lists : list IngredientList) : JMap (list Item) :=
  fold_left
    (fun grouped il =>
       fold_left
         (fun grouped ing => map_push (ing_name ing) (mk_item (recipeTitle il) ing) grouped)
         (ingredients il) grouped)
    lists [].

Definition group_by_unit (items : list Item) : JMap (list Item) :=
  fold_left (fun byUnit it => map_push (ascii_lower (it_unit it)) it byUnit) items [].

(** [items.reduce((sum, item) => sum + item.parsedAmount, 0)] *)
Definition sum_amounts (items : list Item) : float :=
  fold_left (fun s it => (s + parsedAmount it)%float) items 0%float.

Definition to_quantity (it : Item) : ParsedQuantity :=
  mkParsedQuantity (parsedAmount it) (it_unit it) (label it).

Definition first_label (items : list Item) : jstr :=
  match items with it :: _ => label it | [] => [] end.

Definition first_imageUrl (items : list Item) : option jstr :=
  match items with it :: _ => imageUrl it | [] => None end.

Definition items_recipeCount (items : list Item) : nat :=
  set_size (map it_recipeTitle items).

Section Aggregation.

Variable toUpperCase : jstr -> jstr.
Variable localeCompare : jstr -> jstr -> Z.

Definition combine_group (entry : jstr * list Item) : list CombinedIngredient :=
  let (nm, items) := entry in
  let byUnit := group_by_unit items in
  if Nat.eqb (length byUnit) 1 then
    match byUnit with
    | (u, its) :: _ =>
        [mkCombinedIngredient nm (getCleanDisplayName toUpperCase nm (first_label its))
           (map to_quantity its) (sum_amounts its) u (first_imageUrl its)
           (items_recipeCount its)]
    | [] => []
    end
  else
    map (fun '(u, its) =>
           mkCombinedIngredient (nm ++ unit_suffix u)
             (getCleanDisplayName toUpperCase nm (first_label its) ++ unit_suffix u)
             (map to_quantity its) (sum_amounts its) u (first_imageUrl its)
             (items_recipeCount its))
      byUnit.

Fixpoint insert_by_name (x : CombinedIngredient) (l : list CombinedIngredient)
  : list CombinedIngredient :=
  match l with
  | [] => [x]
  | y :: r =>
      if (localeCompare (displayName x) (displayName y) <? 0)%Z then x :: l
      else y :: insert_by_name x r
  end.

Definition sort_by_displayName (l : list CombinedIngredient) : list CombinedIngredient :=
  fold_left (fun acc x => insert_by_name x acc) l [].

Definition combineIngredients (lists : list IngredientList) : list CombinedIngredient :=
  sort_by_displayName (flat_map combine_group (group_by_name lists)).

End Aggregation.

(** The exact sum of finite doubles; [None] if one is not finite. *)
Definition exact_sum (l : list float) : option Q :=
  fold_right (fun f acc =>
                match to_Q f, acc with
                | Some x, Some s => Some (x + s)%Q
                | _, _ => None
                end) (Some 0%Q) l.

(** Two recipes that each use one pack of stock, labelled [(0.1)] and
    [(0.2)]. *)
Definition stock_lists : list IngredientList :=
  [mkIngredientList (js "Soup"%string)
     [mkIngredient (js "1"%string) (js "stock"%string) (js "Stock (0.1)"%string) None 1%float];
   mkIngredientList (js "Stew"%string)
     [mkIngredient (js "2"%string) (js "stock"%string) (js "Stock (0.2)"%string) None 1%float]].

End Dbl.

(** ** Invariants used in the proofs *)

(** The order used by the sort of [insert_by]: [b] does not compare
    strictly before [a]. *)
Definition not_before {A} (key : A -> jstr) (cmp : jstr -> jstr -> Z) (a b : A) : Prop :=
  (cmp (key b) (key a) <? 0)%Z = false.

(** The state of [separateContent] keeps no method line before the method
    section starts, and only lines that look like ingredients as
    ingredient lines. *)
Definition sep_inv (st : SepState) : Prop :=
  (inMethod st = false -> methodLines st = []) /\
  Forall (fun l => looksLikeIngredient l = true) (ingredientLines st).

(** A recipe record of [parseRecipes] whose title comes from a title line
    among [all_lines] and whose slug is the slug of that title. *)
Definition title_ok (toLowerCase normalizeNFD : jstr -> jstr) (all_lines : list jstr)
    (r : RawRecipe) : Prop :=
  slug r = slugify toLowerCase normalizeNFD (title r) /\
  exists line, In line all_lines /\ isRecipeTitle (trim line) = true /\
               title r = cleanTitle (trim line).

Definition parse_inv (toLowerCase normalizeNFD : jstr -> jstr) (all_lines : list jstr)
    (st : ParseState) : Prop :=
  Forall (title_ok toLowerCase normalizeNFD all_lines) (recipes st) /\
  (forall r, currentRecipe st = Some r -> title_ok toLowerCase normalizeNFD all_lines r).

(** * Properties *)

(** ** Evaluation on concrete inputs *)

Example parse_chicken :
  parseQuantityFromLabel (js "Chicken breast strips (250g)"%string)
  = mkParsedLabel (250 # 1) (js "g"%string) true.
Proof. vm_compute. reflexivity. Qed.

Example parse_potato :
  parseQuantityFromLabel (js "White potato x4"%string) = mkParsedLabel (4 # 1) pcs false.
Proof. vm_compute. reflexivity. Qed.

Example parse_curry :
  parseQuantityFromLabel (js "Curry powder (1tbsp)"%string) = mkParsedLabel (1 # 1) (js "tbsp"%string) true.
Proof. vm_compute. reflexivity. Qed.

Example parse_buns :
  parseQuantityFromLabel (js "2 brioche style buns"%string) = mkParsedLabel (2 # 1) pcs true.
Proof. vm_compute. reflexivity. Qed.

Example parse_half :
  parseQuantityFromLabel (js "Stock (0.5) x0"%string) = mkParsedLabel (5 # 10) pcs true.
Proof. vm_compute. reflexivity. Qed.

Example parse_onion :
  parseQuantityFromLabel (js "Red onion"%string) = default_parse.
Proof. vm_compute. reflexivity. Qed.

Example combine_demo :
  map (fun r => (name r, displayName r, totalAmount r, ci_unit r, recipeCount r))
    (combineIngredients (map ascii_upper_cu) (fun a b => if jstr_eqb a b then 0%Z else if N.ltb (hd 0 a) (hd 0 b) then (-1)%Z else 1%Z) demo_lists)
  = [(js "chicken"%string, js "Chicken"%string, 750 # 1, js "g"%string, 1%nat);
     (js "garlic (g)"%string, js "Garlic (g)"%string, 40 # 1, js "g"%string, 1%nat);
     (js "garlic (pcs)"%string, js "Garlic (pcs)"%string, 3 # 1, pcs, 1%nat);
     (js "potato"%string, js "Potato"%string, 4 # 1, pcs, 1%nat)].
Proof. vm_compute. reflexivity. Qed.

Example title_pollo : isRecipeTitle (js "POLLO AL HORNO"%string) = true.
Proof. vm_compute. reflexivity. Qed.

Example title_xe :
  isRecipeTitle (js "ARROZ CON LECHE XE "%string ++ dq ++ js "arroz con leche"%string ++ dq) = true.
Proof. vm_compute. reflexivity. Qed.

Example title_index : isRecipeTitle (js "POLLO AL HORNO · 12"%string) = false.
Proof. vm_compute. reflexivity. Qed.

Example slug_pollo :
  slugify (map ascii_lower_cu) (fun s => s) (js "POLLO AL HORNO"%string)
  = js "pollo-al-horno"%string.
Proof. vm_compute. reflexivity. Qed.

Example clean_xe :
  cleanTitle (js "ARROZ  CON LECHE XE "%string ++ dq ++ js "arroz con leche"%string ++ dq ++ js " "%string)
  = js "ARROZ CON LECHE"%string.
Proof. vm_compute. reflexivity. Qed.

Example ingredient_harina : looksLikeIngredient (js "2 tazas de harina"%string) = true.
Proof. vm_compute. reflexivity. Qed.

Example ingredient_mezclar :
  looksLikeIngredient (js "Mezclar los ingredientes secos."%string) = false.
Proof. vm_compute. reflexivity. Qed.

Example ingredient_freir : looksLikeIngredient (js "FREÍR la cebolla"%string) = false.
Proof. vm_compute. reflexivity. Qed.

Example ingredient_measure :
  looksLikeIngredient (js "Sal, una pizca grande de pimienta negra recien molida 3 cucharadas."%string) = false.
Proof. vm_compute. reflexivity. Qed.

Example ingredient_measure2 :
  looksLikeIngredient (js "Sal, una pizca grande de pimienta negra recien molida, 3 ml."%string) = true.
Proof. vm_compute. reflexivity. Qed.

Example demo_recipes :
  map (fun r => (rc_title r, rc_slug r, ingredientes r, metodo r, content r))
    (processedRecipes (map ascii_lower_cu) (fun s => s) demo_text)
  = [(js "ARROZ CON POLLO"%string, js "arroz-con-pollo"%string,
      Some (js "2 tazas de arroz"%string ++ nl ++ js "1 pollo"%string),
      Some (js "Cocinar el arroz con el pollo durante 20 minutos."%string), None);
     (js "SOPA"%string, js "sopa"%string, None, None,
      Some (js "Una sopa muy sencilla de hacer en casa."%string))].
Proof. vm_compute. reflexivity. Qed.

(** ** Quantity parsing *)

(** C5: [parseQuantityFromLabel] is a total function of the label (the
    embedding has no failure case, matching the source, where no step can
    throw on a string); when the cleaned label matches none of the four
    quantity patterns the result is the default [1], [pcs], count-based. *)
Theorem parse_no_match_default (lbl : jstr) :
  search paren_unit_at (strip_x0 lbl) = None ->
  search paren_num_at (strip_x0 lbl) = None ->
  search x_suffix_at (strip_x0 lbl) = None ->
  leading_num (strip_x0 lbl) = None ->
  parseQuantityFromLabel lbl = mkParsedLabel 1 pcs false.
Proof.
  intros H1 H2 H3 H4. unfold parseQuantityFromLabel.
  rewrite H1, H2, H3, H4. reflexivity.
Qed.

Lemma parse_no_match_default_witness :
  let lbl := js "Red onion x0"%string in
  (search paren_unit_at (strip_x0 lbl) = None /\
   search paren_num_at (strip_x0 lbl) = None /\
   search x_suffix_at (strip_x0 lbl) = None /\
   leading_num (strip_x0 lbl) = None) /\
  parseQuantityFromLabel lbl = mkParsedLabel 1 pcs false.
Proof.
  split.
  - vm_compute. repeat split.
  - apply parse_no_match_default; vm_compute; reflexivity.
Defined.

(** ** Title detection *)

(** C6: a line matching the index-entry pattern is never a recipe title,
    whatever its letters and its cleaned length. *)
Theorem isRecipeTitle_index_entry (line : jstr) :
  isIndexEntry line = true -> isRecipeTitle line = false.
Proof.
  intros H. unfold isRecipeTitle. rewrite H.
  destruct (Nat.ltb _ _); reflexivity.
Qed.

Lemma isRecipeTitle_index_entry_witness :
  isIndexEntry (js "POLLO AL HORNO · 12"%string) = true /\
  isRecipeTitle (js "POLLO AL HORNO · 12"%string) = false.
Proof.
  split.
  - vm_compute. reflexivity.
  - apply isRecipeTitle_index_entry. vm_compute. reflexivity.
Defined.

(** ** Ingredient and method separation *)

Lemma sep_run_in_method (st : SepState) (lines : list jstr) :
  inMethod st = true ->
  sep_run st lines =
  mkSepState (ingredientLines st)
    (methodLines st ++ map trim (filter (fun l => negb (is_blank l)) lines))
    (foundBlankLine st) true.
Proof.
  revert st. induction lines as [|l lines IH]; intros [ing meth fb im] H;
    simpl in H; subst im.
  - simpl. rewrite app_nil_r. reflexivity.
  - unfold sep_run. simpl. unfold sep_step at 2. unfold is_blank at 1.
    destruct (trim l) as [|c t] eqn:Ht; simpl.
    + rewrite andb_false_r.
      apply (IH (mkSepState ing meth fb true)). reflexivity.
    + rewrite andb_false_r.
      change (fold_left sep_step lines (mkSepState ing (meth ++ [c :: t]) fb true))
        with (sep_run (mkSepState ing (meth ++ [c :: t]) fb true) lines).
      rewrite IH by reflexivity. simpl. rewrite <- app_assoc, Ht. reflexivity.
Qed.

(** C9: once the state machine of [separateContent] is in the method
    section it stays there: every later non-blank line (trimmed) goes to
    the method lines and the ingredient lines no longer change. *)
Theorem separate_method_one_way (pre post : list jstr) :
  inMethod (sep_run sep_init pre) = true ->
  let st := sep_run sep_init pre in
  let st' := sep_run sep_init (pre ++ post) in
  inMethod st' = true /\
  ingredientLines st' = ingredientLines st /\
  methodLines st' = methodLines st ++ map trim (filter (fun l => negb (is_blank l)) post).
Proof.
  intros H st st'. subst st st'.
  assert (E : sep_run sep_init (pre ++ post) = sep_run (sep_run sep_init pre) post)
    by (unfold sep_run; apply fold_left_app).
  rewrite E, (sep_run_in_method _ _ H). simpl. auto.
Qed.

Lemma separate_method_one_way_witness :
  let pre := [js "Mezclar todo en un bol."%string] in
  let post := [js "2 tazas de harina"%string; []; js "1 huevo"%string] in
  inMethod (sep_run sep_init pre) = true /\
  (inMethod (sep_run sep_init (pre ++ post)) = true /\
   ingredientLines (sep_run sep_init (pre ++ post)) = ingredientLines (sep_run sep_init pre) /\
   methodLines (sep_run sep_init (pre ++ post)) =
     methodLines (sep_run sep_init pre) ++ map trim (filter (fun l => negb (is_blank l)) post)).
Proof.
  split.
  - vm_compute. reflexivity.
  - apply separate_method_one_way. vm_compute. reflexivity.
Defined.

(** C8: [separateContent] returns the split form, ingredient lines joined
    by one newline and method lines by two, exactly when at least two
    ingredient lines and one method line were collected, and the trimmed
    body otherwise; on the body of the spec's second example it yields the
    stated [ingredientes] and [metodo]. *)
Theorem separateContent_acceptance (body : jstr) :
  let st := sep_run sep_init (split_nl body) in
  ((exists i m, separateContent body = SepSplit i m) <->
   (2 <= length (ingredientLines st) /\ 1 <= length (methodLines st))%nat) /\
  ((2 <= length (ingredientLines st) /\ 1 <= length (methodLines st))%nat ->
   separateContent body =
   SepSplit (join nl (ingredientLines st)) (join nlnl (methodLines st))) /\
  (~ (2 <= length (ingredientLines st) /\ 1 <= length (methodLines st))%nat ->
   separateContent body = SepContent (trim body)) /\
  separateContent example2_body =
  SepSplit (js "2 tazas de harina"%string ++ nl ++ js "1 taza de azúcar"%string)
           (js "Mezclar los ingredientes secos."%string ++ nlnl ++
            js "Hornear a 180 grados."%string).
Proof.
  intros st.
  assert (Ex : separateContent example2_body =
    SepSplit (js "2 tazas de harina"%string ++ nl ++ js "1 taza de azúcar"%string)
             (js "Mezclar los ingredientes secos."%string ++ nlnl ++
              js "Hornear a 180 grados."%string)) by (vm_compute; reflexivity).
  refine (conj _ (conj _ (conj _ Ex))); clear Ex;
  unfold separateContent; fold st;
  destruct (Nat.leb 2 (length (ingredientLines st))) eqn:Hi;
  destruct (Nat.leb 1 (length (methodLines st))) eqn:Hm;
  (apply Nat.leb_le in Hi || apply Nat.leb_gt in Hi);
  (apply Nat.leb_le in Hm || apply Nat.leb_gt in Hm); cbn [andb];
  first [ split; [intros _; lia | intros _; eauto]
        | split; [intros [i [m H]]; discriminate | lia]
        | intros _; reflexivity
        | intros H; exfalso; lia
        | intros H; reflexivity
        | intros [H1 H2]; lia ].
Qed.

(** ** Slugs *)

Lemma collapse_runs_chars (p : N -> bool) (P : N -> Prop) (rep : N) (b : bool) (s : jstr) :
  Forall (fun c => p c = false -> P c) s -> P rep ->
  Forall P (collapse_runs p rep b s).
Proof.
  revert b. induction s as [|c r IH]; intros b Hs Hrep; simpl; [constructor|].
  inversion Hs; subst.
  destruct (p c) eqn:Hp; [destruct b|]; auto.
Qed.

Lemma no_double_cons (c : N) (x : jstr) :
  (forall a b, x <> a ++ 45 :: 45 :: b) ->
  (c <> 45 \/ forall t, x <> 45 :: t) ->
  forall a b, c :: x <> a ++ 45 :: 45 :: b.
Proof.
  intros Hx Hc a b E. destruct a as [|a0 a'].
  - simpl in E. injection E as -> E. destruct Hc as [Hc|Hc]; [auto|exact (Hc b E)].
  - simpl in E. injection E as _ E. exact (Hx _ _ E).
Qed.

Lemma collapse_hyphens_ok (b : bool) (s : jstr) :
  (forall a t, collapse_runs (N.eqb 45) 45 b s <> a ++ 45 :: 45 :: t) /\
  (b = true -> forall t, collapse_runs (N.eqb 45) 45 b s <> 45 :: t).
Proof.
  revert b. induction s as [|c r IH]; intros b; cbn [collapse_runs].
  - split; [intros [|] t E; discriminate | intros _ t E; discriminate].
  - destruct (N.eqb_spec 45 c) as [Hc|Hc].
    + destruct b.
      * apply IH.
      * destruct (IH true) as [H1 H2]. split; [|discriminate].
        apply no_double_cons; [exact H1|right; exact (H2 eq_refl)].
    + destruct (IH false) as [H1 _]. split.
      * apply no_double_cons; [exact H1|left; auto].
      * intros _ t E. injection E as E. auto.
Qed.

Lemma trim_hyphens_ok (P : N -> Prop) (s : jstr) :
  Forall P s -> (forall a t, s <> a ++ 45 :: 45 :: t) ->
  let o := trim_hyphens s in
  Forall P o /\ (forall t, o <> 45 :: t) /\ (forall t, o <> t ++ [45]) /\
  (forall a t, o <> a ++ 45 :: 45 :: t).
Proof.
  intros HP Hd o.
  set (s1 := match s with c :: r => if c =? 45 then r else s | [] => [] end).
  assert (H1 : Forall P s1 /\ (forall t, s1 <> 45 :: t) /\
               (forall a t, s1 <> a ++ 45 :: 45 :: t)).
  { subst s1. destruct s as [|c r]; [repeat split; [constructor|discriminate|intros [|]; discriminate]|].
    inversion HP; subst.
    destruct (N.eqb_spec c 45) as [->|Hc].
    - repeat split; auto.
      + intros t ->. apply (Hd [] t). reflexivity.
      + intros a t ->. apply (Hd (45 :: a) t). reflexivity.
    - repeat split; auto.
      intros t E. injection E as E. auto. }
  destruct H1 as [HP1 [Hh1 Hd1]].
  subst o. unfold trim_hyphens. fold s1.
  destruct (rev s1) as [|c r] eqn:Hr.
  - repeat split; auto. intros t E. apply (f_equal (@rev N)) in E.
    rewrite Hr, rev_app_distr in E. discriminate.
  - assert (Es : s1 = rev r ++ [c]).
    { rewrite <- (rev_involutive s1), Hr. reflexivity. }
    destruct (N.eqb_spec c 45) as [->|Hc].
    + rewrite Es in HP1, Hh1, Hd1. apply Forall_app in HP1 as [HP1 _].
      repeat split; auto.
      * intros t E. rewrite E in Hh1. apply (Hh1 (t ++ [45])). reflexivity.
      * intros t E. rewrite E in Hd1. apply (Hd1 t []). rewrite <- app_assoc. reflexivity.
      * intros a t E. rewrite E in Hd1. apply (Hd1 a (t ++ [45])).
        rewrite <- app_assoc. reflexivity.
    + repeat split; auto. intros t E. rewrite E, rev_app_distr in Hr.
      simpl in Hr. injection Hr as Hr. auto.
Qed.

(** C7: whatever [toLowerCase] and [normalize('NFD')] return, a slug
    consists of lower-case ASCII letters, digits and hyphens only, and has
    no leading hyphen, no trailing hyphen and no two consecutive
    hyphens. *)
Theorem slugify_wellformed (toLowerCase normalizeNFD : jstr -> jstr) (T : jstr) :
  let s := slugify toLowerCase normalizeNFD T in
  Forall (fun c => slug_char c = true) s /\
  (forall t, s <> 45 :: t) /\
  (forall t, s <> t ++ [45]) /\
  (forall a t, s <> a ++ 45 :: 45 :: t).
Proof.
  intros s. subst s. unfold slugify.
  set (s0 := filter slug_keep _).
  assert (H0 : Forall (fun c => slug_keep c = true) s0).
  { apply Forall_forall. intros c Hc. apply filter_In in Hc. tauto. }
  set (s1 := collapse_runs is_space 45 false s0).
  assert (H1 : Forall (fun c => slug_char c = true) s1).
  { apply collapse_runs_chars; [|reflexivity].
    eapply Forall_impl; [|exact H0]. intros c Hk Hsp.
    unfold slug_keep in Hk. rewrite Hsp in Hk. unfold slug_char.
    rewrite orb_false_r in Hk. exact Hk. }
  set (s2 := collapse_runs (N.eqb 45) 45 false s1).
  assert (H2 : Forall (fun c => slug_char c = true) s2).
  { apply collapse_runs_chars; [|reflexivity].
    eapply Forall_impl; [|exact H1]. auto. }
  destruct (collapse_hyphens_ok false s1) as [Hd _].
  exact (trim_hyphens_ok _ s2 H2 Hd).
Qed.

(** ** Recipe records *)

Lemma save_current_nonblank (rs : list RawRecipe) (cur : option RawRecipe) :
  Forall (fun r => is_blank (rawContent r) = false) rs ->
  Forall (fun r => is_blank (rawContent r) = false) (save_current rs cur).
Proof.
  intros H. destruct cur as [r|]; simpl; auto.
  destruct (is_blank (rawContent r)) eqn:E; auto.
  apply Forall_app. split; auto.
Qed.

Lemma parseRecipes_nonblank (toLowerCase normalizeNFD : jstr -> jstr) (text : jstr) :
  Forall (fun r => is_blank (rawContent r) = false)
    (parseRecipes toLowerCase normalizeNFD text).
Proof.
  unfold parseRecipes.
  assert (Inv : forall lines st,
    Forall (fun r => is_blank (rawContent r) = false) (recipes st) ->
    Forall (fun r => is_blank (rawContent r) = false)
      (recipes (fold_left (parse_step toLowerCase normalizeNFD) lines st))).
  { induction lines as [|l lines IH]; intros st Hst; simpl; auto.
    apply IH. unfold parse_step.
    repeat match goal with
           | |- context [if ?b then _ else _] => destruct b
           | |- context [match currentRecipe st with _ => _ end] =>
               destruct (currentRecipe st)
           end; simpl; auto using save_current_nonblank. }
  apply save_current_nonblank, Inv. constructor.
Qed.

Lemma sep_run_nonempty (st : SepState) (lines : list jstr) :
  Forall (fun l => l <> []) (ingredientLines st) ->
  Forall (fun l => l <> []) (methodLines st) ->
  Forall (fun l => l <> []) (ingredientLines (sep_run st lines)) /\
  Forall (fun l => l <> []) (methodLines (sep_run st lines)).
Proof.
  revert st. induction lines as [|l lines IH]; intros st Hi Hm; [auto|].
  apply IH; unfold sep_step; destruct (trim l) as [|c t];
    repeat match goal with
           | |- context [if ?b then _ else _] => destruct b
           end; simpl; auto;
    apply Forall_app; split; auto; repeat constructor; discriminate.
Qed.

Lemma join_nonempty (sep : jstr) (l : list jstr) :
  Forall (fun x => x <> []) l -> l <> [] -> join sep l <> [].
Proof.
  intros H Hl. destruct l as [|x [|y r]]; [congruence| |]; inversion H; subst; simpl; auto.
  intros E. apply app_eq_nil in E as [E _]. auto.
Qed.

Lemma is_blank_false (s : jstr) : is_blank s = false -> trim s <> [].
Proof. unfold is_blank. destruct (trim s); congruence. Qed.

(** C3: every recipe record produced by [main] (whose bodies are never
    blank) has exactly one of the two shapes: [content] set (non-empty)
    with neither [ingredientes] nor [metodo], or both [ingredientes] and
    [metodo] set (non-empty) without [content]. *)
Theorem processed_recipe_shape (toLowerCase normalizeNFD : jstr -> jstr) (text : jstr)
    (r : Receta) :
  In r (processedRecipes toLowerCase normalizeNFD text) ->
  ((exists c, content r = Some c /\ c <> []) /\ ingredientes r = None /\ metodo r = None) \/
  ((exists i m, ingredientes r = Some i /\ metodo r = Some m /\ i <> [] /\ m <> []) /\
   content r = None).
Proof.
  unfold processedRecipes. intros Hin. apply in_map_iff in Hin as [raw [<- Hraw]].
  pose proof (parseRecipes_nonblank toLowerCase normalizeNFD text) as Hnb.
  rewrite Forall_forall in Hnb. specialize (Hnb raw Hraw).
  unfold process_recipe, separateContent.
  set (st := sep_run sep_init (split_nl (rawContent raw))).
  destruct (sep_run_nonempty sep_init (split_nl (rawContent raw)) (Forall_nil _) (Forall_nil _))
    as [Hi Hm]. fold st in Hi, Hm.
  destruct (Nat.leb 2 (length (ingredientLines st)) && Nat.leb 1 (length (methodLines st)))
    eqn:E; simpl.
  - right. apply andb_true_iff in E as [E1 E2].
    apply Nat.leb_le in E1, E2. split; [|reflexivity].
    exists (join nl (ingredientLines st)), (join nlnl (methodLines st)).
    repeat split; apply join_nonempty; auto;
      intros Hn; rewrite Hn in *; simpl in *; lia.
  - left. repeat split. exists (trim (rawContent raw)). split; auto using is_blank_false.
Qed.

Lemma processed_recipe_shape_witness :
  let r := mkReceta (js "SOPA"%string) (js "sopa"%string) None None
             (Some (js "Una sopa muy sencilla de hacer en casa."%string)) in
  In r (processedRecipes (map ascii_lower_cu) (fun s => s) demo_text) /\
  (((exists c, content r = Some c /\ c <> []) /\ ingredientes r = None /\ metodo r = None) \/
   ((exists i m, ingredientes r = Some i /\ metodo r = Some m /\ i <> [] /\ m <> []) /\
    content r = None)).
Proof.
  split.
  - vm_compute. right. left. reflexivity.
  - apply (processed_recipe_shape (map ascii_lower_cu) (fun s => s) demo_text).
    vm_compute. right. left. reflexivity.
Defined.

(** ** Grouping with [map_push] *)

Lemma jstr_eqb_spec (a b : jstr) : reflect (a = b) (jstr_eqb a b).
Proof. unfold jstr_eqb. destruct (jstr_eq_dec a b); constructor; auto. Qed.

Lemma jstr_eqb_sym (a b : jstr) : jstr_eqb a b = jstr_eqb b a.
Proof.
  destruct (jstr_eqb_spec a b), (jstr_eqb_spec b a); congruence.
Qed.

Lemma existsb_jstr_eqb (k : jstr) (l : list jstr) :
  existsb (jstr_eqb k) l = true <-> In k l.
Proof.
  rewrite existsb_exists. split.
  - intros [x [Hx E]]. destruct (jstr_eqb_spec k x); congruence.
  - intros H. exists k. split; auto. destruct (jstr_eqb_spec k k); congruence.
Qed.

Lemma nodup_first_snoc (l : list jstr) (k : jstr) :
  nodup_first (l ++ [k]) =
  if existsb (jstr_eqb k) (nodup_first l) then nodup_first l else nodup_first l ++ [k].
Proof. unfold nodup_first. rewrite fold_left_app. reflexivity. Qed.

Lemma nodup_first_In (l : list jstr) (k : jstr) : In k (nodup_first l) <-> In k l.
Proof.
  induction l as [|x l IH] using rev_ind; [simpl; tauto|].
  rewrite nodup_first_snoc, in_app_iff.
  destruct (existsb (jstr_eqb x) (nodup_first l)) eqn:E.
  - apply existsb_jstr_eqb in E. rewrite IH. simpl.
    split; [tauto|]. intros [H|[<-|[]]]; [auto|]. apply IH; auto.
  - rewrite in_app_iff, IH. tauto.
Qed.

Lemma nodup_first_NoDup (l : list jstr) : NoDup (nodup_first l).
Proof.
  induction l as [|x l IH] using rev_ind; [constructor|].
  rewrite nodup_first_snoc.
  destruct (existsb (jstr_eqb x) (nodup_first l)) eqn:E; auto.
  apply NoDup_app; auto.
  - repeat constructor. auto.
  - intros y Hy [<-|[]]. apply existsb_jstr_eqb in Hy. congruence.
Qed.

Lemma map_push_in {V} (k : jstr) (v : V) (f : jstr -> list V) (ks : list jstr) :
  NoDup ks -> In k ks ->
  map_push k v (map (fun k' => (k', f k')) ks) =
  map (fun k' => (k', if jstr_eqb k' k then f k' ++ [v] else f k')) ks.
Proof.
  induction ks as [|k0 ks IH]; intros Hnd Hin; [destruct Hin|].
  inversion Hnd; subst. simpl.
  destruct (jstr_eq_dec k k0) as [<-|Hne].
  - destruct (jstr_eqb_spec k k); [|congruence]. f_equal.
    apply map_ext_in. intros k' Hk'.
    destruct (jstr_eqb_spec k' k); congruence.
  - destruct Hin as [->|Hin]; [congruence|].
    destruct (jstr_eqb_spec k0 k); [congruence|]. f_equal. auto.
Qed.

Lemma map_push_notin {V} (k : jstr) (v : V) (f : jstr -> list V) (ks : list jstr) :
  ~ In k ks ->
  map_push k v (map (fun k' => (k', f k')) ks) =
  map (fun k' => (k', f k')) ks ++ [(k, [v])].
Proof.
  induction ks as [|k0 ks IH]; intros Hin; [reflexivity|]. simpl.
  destruct (jstr_eq_dec k k0) as [<-|Hne]; [destruct Hin; left; auto|].
  f_equal. apply IH. intros H. apply Hin. right. auto.
Qed.

Lemma filter_all_false {A} (f : A -> bool) (l : list A) :
  (forall x, In x l -> f x = false) -> filter f l = [].
Proof.
  induction l as [|x l IH]; intros H; simpl; auto.
  rewrite H by (left; auto). apply IH. intros y Hy. apply H. right. auto.
Qed.

Section Grouping.

Context {A V : Type} (key : A -> jstr) (val : A -> V).

Lemma fold_push_group (xs : list A) :
  fold_left (fun m x => map_push (key x) (val x) m) xs [] = group_spec key val xs.
Proof.
  induction xs as [|x xs IH] using rev_ind; [reflexivity|].
  rewrite fold_left_app, IH. simpl. unfold group_spec.
  rewrite (map_app key xs [x]). cbn [map]. rewrite nodup_first_snoc.
  destruct (existsb (jstr_eqb (key x)) (nodup_first (map key xs))) eqn:E.
  - apply existsb_jstr_eqb in E.
    rewrite (map_push_in _ _ (fun k => map val (filter (fun y => jstr_eqb (key y) k) xs)))
      by auto using nodup_first_NoDup.
    apply map_ext. intros k. rewrite filter_app, map_app. simpl.
    rewrite (jstr_eqb_sym k (key x)).
    destruct (jstr_eqb (key x) k); simpl; rewrite ?app_nil_r; reflexivity.
  - rewrite map_push_notin.
    2:{ intros H. apply existsb_jstr_eqb in H. congruence. }
    rewrite map_app. simpl. f_equal.
    + apply map_ext_in. intros k Hk. rewrite filter_app, map_app. simpl.
      destruct (jstr_eqb_spec (key x) k) as [<-|]; simpl; [|rewrite app_nil_r; auto].
      apply existsb_jstr_eqb in Hk. congruence.
    + f_equal. f_equal. rewrite filter_app, map_app.
      assert (Hnil : filter (fun y => jstr_eqb (key y) (key x)) xs = []).
      { apply filter_all_false.
        intros y Hy. destruct (jstr_eqb_spec (key y) (key x)) as [Ey|]; auto.
        exfalso. assert (In (key x) (nodup_first (map key xs))).
        { apply nodup_first_In, in_map_iff. eauto. }
        apply existsb_jstr_eqb in H. congruence. }
      rewrite Hnil. simpl. destruct (jstr_eqb_spec (key x) (key x)); [reflexivity|congruence].
Qed.

End Grouping.

(** ** The aggregate *)

Lemma group_by_name_flat (lists : list IngredientList) (m : JMap (list Item)) :
  fold_left
    (fun grouped il =>
       fold_left
         (fun grouped ing => map_push (ing_name ing) (mk_item (recipeTitle il) ing) grouped)
         (ingredients il) grouped)
    lists m =
  fold_left (fun m p => map_push (ing_name (snd p)) (mk_item (fst p) (snd p)) m)
    (occurrences lists) m.
Proof.
  revert m. induction lists as [|il lists IH]; intros m; [reflexivity|].
  unfold occurrences. simpl. rewrite fold_left_app. fold (occurrences lists).
  rewrite <- IH. f_equal.
  generalize m. induction (ingredients il) as [|ing l IHl]; intros m'; simpl; auto.
Qed.

Lemma group_by_name_eq (lists : list IngredientList) :
  group_by_name lists = map (fun n => (n, occ_items lists n)) (ingredient_names lists).
Proof.
  unfold group_by_name. rewrite group_by_name_flat.
  exact (fold_push_group (fun p => ing_name (snd p)) (fun p => mk_item (fst p) (snd p))
           (occurrences lists)).
Qed.

Lemma group_by_unit_eq (its : list Item) :
  group_by_unit its =
  map (fun u => (u, filter (fun it => jstr_eqb (norm_unit it) u) its))
    (nodup_first (map norm_unit its)).
Proof.
  unfold group_by_unit.
  transitivity (group_spec norm_unit (fun it => it) its).
  { exact (fold_push_group norm_unit (fun it => it) its). }
  unfold group_spec.
  apply map_ext. intros u. rewrite map_id. reflexivity.
Qed.

Lemma combine_group_eq (toUpperCase : jstr -> jstr) (lists : list IngredientList) (n : jstr) :
  combine_group toUpperCase (n, occ_items lists n) =
  map (expected_record toUpperCase lists n) (name_units lists n).
Proof.
  unfold combine_group. rewrite group_by_unit_eq. rewrite length_map.
  fold (name_units lists n).
  unfold expected_record, unit_items.
  destruct (Nat.eqb (length (name_units lists n)) 1) eqn:E.
  - apply Nat.eqb_eq in E.
    destruct (name_units lists n) as [|u [|u' r]]; simpl in E; try discriminate.
    simpl. rewrite !app_nil_r. reflexivity.
  - rewrite map_map. apply map_ext. intros u.
    unfold getCleanDisplayName. rewrite <- app_assoc. reflexivity.
Qed.

Lemma insert_by_name_perm (lc : jstr -> jstr -> Z) (x : CombinedIngredient) l :
  Permutation (insert_by_name lc x l) (x :: l).
Proof.
  induction l as [|y l IH]; simpl; [auto|].
  destruct (lc (displayName x) (displayName y) <? 0)%Z; [auto|].
  eapply perm_trans; [apply perm_skip, IH|]. apply perm_swap.
Qed.

Lemma sort_by_displayName_perm (lc : jstr -> jstr -> Z) (l : list CombinedIngredient) :
  Permutation (sort_by_displayName lc l) l.
Proof.
  unfold sort_by_displayName.
  assert (G : forall l acc, Permutation (fold_left (fun acc x => insert_by_name lc x acc) l acc)
                                        (l ++ acc)).
  { induction l0 as [|x l0 IH]; intros acc; simpl; [auto|].
    eapply perm_trans; [apply IH|].
    eapply perm_trans; [apply Permutation_app_head, insert_by_name_perm|].
    apply Permutation_sym, Permutation_middle. }
  rewrite <- (app_nil_r l) at 2. apply G.
Qed.

Lemma combine_perm (toUpperCase : jstr -> jstr) (lc : jstr -> jstr -> Z)
    (lists : list IngredientList) :
  Permutation (combineIngredients toUpperCase lc lists)
    (flat_map (fun n => map (expected_record toUpperCase lists n) (name_units lists n))
       (ingredient_names lists)).
Proof.
  unfold combineIngredients. eapply perm_trans; [apply sort_by_displayName_perm|].
  rewrite group_by_name_eq.
  induction (ingredient_names lists) as [|n ns IH]; cbn [map flat_map]; [auto|].
  rewrite combine_group_eq. apply Permutation_app_head, IH.
Qed.

Lemma in_combine (toUpperCase : jstr -> jstr) (lc : jstr -> jstr -> Z)
    (lists : list IngredientList) (r : CombinedIngredient) :
  In r (combineIngredients toUpperCase lc lists) <->
  exists n u, In n (ingredient_names lists) /\ In u (name_units lists n) /\
              r = expected_record toUpperCase lists n u.
Proof.
  split.
  - intros H. eapply Permutation_in in H; [|apply combine_perm].
    apply in_flat_map in H as [n [Hn Hr]]. apply in_map_iff in Hr as [u [<- Hu]].
    eauto.
  - intros [n [u [Hn [Hu ->]]]].
    eapply Permutation_in; [apply Permutation_sym, combine_perm|].
    apply in_flat_map. exists n. split; auto. apply in_map. auto.
Qed.

(** C4: [combineIngredients] emits, up to the final sort, exactly one row
    per ingredient name and normalised unit of that name, in the form of
    [expected_record]: when the name spans several units, [name] and
    [displayName] carry the suffix [ (unit)]; when it has a single unit the
    name is unmodified; [displayName] is the name with its first character
    upper-cased; [recipeCount] is the number of distinct recipe titles of
    that (name, unit) group. *)
Theorem combineIngredients_rows (toUpperCase : jstr -> jstr) (lc : jstr -> jstr -> Z)
    (lists : list IngredientList) :
  Permutation (combineIngredients toUpperCase lc lists)
    (flat_map (fun n => map (expected_record toUpperCase lists n) (name_units lists n))
       (ingredient_names lists)).
Proof. apply combine_perm. Qed.

Lemma dbl_insert_by_name_perm (lc : jstr -> jstr -> Z) (x : Dbl.CombinedIngredient) l :
  Permutation (Dbl.insert_by_name lc x l) (x :: l).
Proof.
  induction l as [|y l IH]; simpl; [auto|].
  destruct (lc (Dbl.displayName x) (Dbl.displayName y) <? 0)%Z; [auto|].
  eapply perm_trans; [apply perm_skip, IH|]. apply perm_swap.
Qed.

Lemma dbl_sort_by_displayName_perm (lc : jstr -> jstr -> Z) (l : list Dbl.CombinedIngredient) :
  Permutation (Dbl.sort_by_displayName lc l) l.
Proof.
  unfold Dbl.sort_by_displayName.
  assert (G : forall l acc,
             Permutation (fold_left (fun acc x => Dbl.insert_by_name lc x acc) l acc)
                         (l ++ acc)).
  { induction l0 as [|x l0 IH]; intros acc; simpl; [auto|].
    eapply perm_trans; [apply IH|].
    eapply perm_trans; [apply Permutation_app_head, dbl_insert_by_name_perm|].
    apply Permutation_sym, Permutation_middle. }
  rewrite <- (app_nil_r l) at 2. apply G.
Qed.

(** Every row of the aggregate comes from one unit group [its] of the
    name grouping, with the quantities and the total of that group. *)
Lemma dbl_in_combine (toUpperCase : jstr -> jstr) (lc : jstr -> jstr -> Z)
    (lists : list Dbl.IngredientList) (r : Dbl.CombinedIngredient) :
  In r (Dbl.combineIngredients toUpperCase lc lists) ->
  exists its, Dbl.quantities r = map Dbl.to_quantity its /\
              Dbl.totalAmount r = Dbl.sum_amounts its.
Proof.
  unfold Dbl.combineIngredients. intros H.
  eapply Permutation_in in H; [|apply dbl_sort_by_displayName_perm].
  apply in_flat_map in H as [[nm items] [_ H]].
  unfold Dbl.combine_group in H.
  destruct (Nat.eqb _ 1).
  - destruct (Dbl.group_by_unit items) as [|[u its] rest]; [destruct H|].
    destruct H as [<-|[]]. exists its. split; reflexivity.
  - apply in_map_iff in H as [[u its] [<- _]]. exists its. split; reflexivity.
Qed.

(** C2, as stated, fails in double precision: two [Stock] occurrences
    labelled [(0.1)] and [(0.2)], each of quantity 1, give one row whose
    [totalAmount] is the double [0.30000000000000004], while the exact sum of
    its two amounts (the doubles nearest 0.1 and 0.2) is a different
    rational. *)
Lemma combine_totalAmount_sum_counterexample :
  ~ (forall r : Dbl.CombinedIngredient,
       In r (Dbl.combineIngredients (map ascii_upper_cu) cu_compare Dbl.stock_lists) ->
       exists t s, Dbl.to_Q (Dbl.totalAmount r) = Some t /\
                   Dbl.exact_sum (map Dbl.amount (Dbl.quantities r)) = Some s /\
                   (t == s)%Q).
Proof.
  intros H.
  destruct (H (hd (Dbl.mkCombinedIngredient [] [] [] PrimFloat.zero [] None 0)
                 (Dbl.combineIngredients (map ascii_upper_cu) cu_compare Dbl.stock_lists)))
    as [t [s [Ht [Hs E]]]].
  - vm_compute. left. reflexivity.
  - vm_compute in Ht. vm_compute in Hs.
    injection Ht as <-. injection Hs as <-. vm_compute in E. discriminate E.
Qed.

(** C2 (amended): in every row of [combineIngredients], [totalAmount] is
    the left-to-right double-precision sum of the [amount] fields of
    [quantities] starting from 0, each addition rounded:
    [quantities.reduce((s, q) => s + q.amount, 0)]. *)
Theorem combine_totalAmount_reduce (toUpperCase : jstr -> jstr) (lc : jstr -> jstr -> Z)
    (lists : list Dbl.IngredientList) (r : Dbl.CombinedIngredient) :
  In r (Dbl.combineIngredients toUpperCase lc lists) ->
  Dbl.totalAmount r = fold_left PrimFloat.add (map Dbl.amount (Dbl.quantities r)) PrimFloat.zero.
Proof.
  intros H. apply dbl_in_combine in H as [its [-> ->]].
  rewrite map_map. unfold Dbl.sum_amounts. cbn [Dbl.amount Dbl.to_quantity].
  assert (G : forall z, fold_left (fun s it => PrimFloat.add s (Dbl.parsedAmount it)) its z =
                       fold_left PrimFloat.add (map Dbl.parsedAmount its) z).
  { induction its as [|it its IH]; intros z; simpl; [reflexivity|apply IH]. }
  apply G.
Qed.

Lemma combine_totalAmount_reduce_witness :
  let r := hd (Dbl.mkCombinedIngredient [] [] [] PrimFloat.zero [] None 0)
             (Dbl.combineIngredients (map ascii_upper_cu) cu_compare Dbl.stock_lists) in
  In r (Dbl.combineIngredients (map ascii_upper_cu) cu_compare Dbl.stock_lists) /\
  Dbl.totalAmount r = fold_left PrimFloat.add (map Dbl.amount (Dbl.quantities r)) PrimFloat.zero.
Proof.
  split.
  - vm_compute. left. reflexivity.
  - apply (combine_totalAmount_reduce (map ascii_upper_cu) cu_compare Dbl.stock_lists).
    vm_compute. left. reflexivity.
Defined.

(** ** Units of the aggregate *)

Lemma search_some {X} (f : jstr -> option X) (s : jstr) (x : X) :
  search f s = Some x -> exists s', f s' = Some x.
Proof.
  induction s as [|c r IH]; simpl; destruct (f _) eqn:E; intros H; eauto;
    try discriminate; injection H as <-; eauto.
Qed.

Lemma first_alt_some (alts : list jstr) (s m : jstr) :
  first_alt alts s = Some m -> exists a r, In a alts /\ ci_prefix a s = Some (m, r).
Proof.
  induction alts as [|a al IH]; simpl; [discriminate|].
  destruct (ci_prefix a s) as [[m' [|c r]]|] eqn:E; intros H.
  - destruct (IH H) as [a' [r' [Ha' Hr']]]. eauto.
  - destruct (c =? 41).
    + injection H as <-. exists a, (c :: r). auto.
    + destruct (IH H) as [a' [r' [Ha' Hr']]]. eauto.
  - destruct (IH H) as [a' [r' [Ha' Hr']]]. eauto.
Qed.

Lemma ci_eq_lower (p c : N) :
  is_lower_ascii p = true -> ci_eq p c = true -> ascii_lower_cu c = p.
Proof.
  intros Hp. unfold is_lower_ascii in Hp.
  apply andb_true_iff in Hp as [Hp1 Hp2]. apply N.leb_le in Hp1, Hp2.
  assert (Hu : is_upper_ascii p = false).
  { unfold is_upper_ascii. apply andb_false_iff. right. apply N.leb_gt. lia. }
  assert (Hs : swap_case p = p - 32).
  { unfold swap_case. rewrite Hu. unfold is_lower_ascii.
    replace (97 <=? p) with true by (symmetry; apply N.leb_le; lia).
    replace (p <=? 122) with true by (symmetry; apply N.leb_le; lia). reflexivity. }
  unfold ci_eq. rewrite Hs. intros H.
  apply orb_true_iff in H as [H|H]; apply N.eqb_eq in H; subst c;
    unfold ascii_lower_cu.
  - rewrite Hu. reflexivity.
  - replace (is_upper_ascii (p - 32)) with true.
    + lia.
    + symmetry. unfold is_upper_ascii. apply andb_true_iff.
      split; apply N.leb_le; lia.
Qed.

Lemma ci_prefix_lower (p s m r : jstr) :
  Forall (fun c => is_lower_ascii c = true) p ->
  ci_prefix p s = Some (m, r) -> ascii_lower m = p.
Proof.
  revert s m. induction p as [|a p IH]; intros s m Hp H.
  - simpl in H. injection H as <- _. reflexivity.
  - destruct s as [|c s]; simpl in H; [discriminate|].
    inversion Hp; subst.
    destruct (ci_eq a c) eqn:Ec; [|discriminate].
    destruct (ci_prefix p s) as [[m' r']|] eqn:E; [|discriminate].
    injection H as <- <-. simpl. f_equal; eauto using ci_eq_lower.
Qed.

Lemma unit_alternatives_lower :
  Forall (Forall (fun c => is_lower_ascii c = true)) unit_alternatives.
Proof. vm_compute. repeat constructor. Qed.

Lemma unit_alternatives_fixed (u : jstr) : In u unit_alternatives -> ascii_lower u = u.
Proof.
  intros H. vm_compute in H.
  repeat (destruct H as [<-|H]; [reflexivity|]). destruct H.
Qed.

Lemma canonical_units_fixed (u : jstr) : In u canonical_units -> ascii_lower u = u.
Proof.
  intros H. vm_compute in H.
  repeat (destruct H as [<-|H]; [reflexivity|]). destruct H.
Qed.

Lemma parse_unit_in (lbl : jstr) : In (pl_unit (parseQuantityFromLabel lbl)) unit_alternatives.
Proof.
  assert (Hpcs : In pcs unit_alternatives) by (vm_compute; tauto).
  unfold parseQuantityFromLabel.
  destruct (search paren_unit_at (strip_x0 lbl)) as [[a u]|] eqn:E1.
  - apply search_some in E1 as [s' Hs]. simpl.
    unfold paren_unit_at in Hs. destruct s' as [|c r]; [discriminate|].
    destruct (c =? 40); [|discriminate].
    destruct (number_at r) as [[v r1]|]; [|discriminate].
    destruct (first_alt unit_alternatives (drop_while is_space r1)) as [u'|] eqn:Ef;
      [|discriminate].
    injection Hs as _ <-.
    apply first_alt_some in Ef as [a' [r' [Ha Hc]]].
    pose proof unit_alternatives_lower as HL. rewrite Forall_forall in HL.
    rewrite (ci_prefix_lower _ _ _ _ (HL a' Ha) Hc). exact Ha.
  - destruct (search paren_num_at (strip_x0 lbl)); [exact Hpcs|].
    destruct (search x_suffix_at (strip_x0 lbl)); [exact Hpcs|].
    destruct (leading_num (strip_x0 lbl)); exact Hpcs.
Qed.

Lemma mk_item_unit (t : jstr) (ing : Ingredient) :
  In (it_unit (mk_item t ing)) canonical_units.
Proof.
  unfold mk_item. cbn [it_unit].
  pose proof (parse_unit_in (ing_label ing)) as Hu.
  destruct (existsb (jstr_eqb (ascii_lower (pl_unit (parseQuantityFromLabel (ing_label ing)))))
              measuredUnits) eqn:E.
  - apply existsb_jstr_eqb in E. rewrite unit_alternatives_fixed in E by exact Hu.
    assert (Hincl : incl measuredUnits canonical_units).
    { intros x Hx. vm_compute in Hx |- *. tauto. }
    apply Hincl. exact E.
  - vm_compute. tauto.
Qed.

Lemma occ_items_unit (lists : list IngredientList) (n : jstr) (it : Item) :
  In it (occ_items lists n) -> In (it_unit it) canonical_units /\ norm_unit it = it_unit it.
Proof.
  unfold occ_items. intros H. apply in_map_iff in H as [[t ing] [<- _]].
  pose proof (mk_item_unit t ing) as Hc. split; auto.
  apply canonical_units_fixed. exact Hc.
Qed.

(** C10: in every row of the aggregate, each element of [quantities] has
    the row's own unit, and that unit is one of [g], [kg], [ml], [l],
    [tsp], [tbsp], [pcs]. *)
Theorem combine_row_units (toUpperCase : jstr -> jstr) (lc : jstr -> jstr -> Z)
    (lists : list IngredientList) (r : CombinedIngredient) :
  In r (combineIngredients toUpperCase lc lists) ->
  (forall q, In q (quantities r) -> pq_unit q = ci_unit r) /\
  In (ci_unit r) canonical_units.
Proof.
  intros H. apply in_combine in H as [n [u [_ [Hu ->]]]].
  unfold expected_record. cbn [quantities ci_unit]. split.
  - intros q Hq. apply in_map_iff in Hq as [it [<- Hit]].
    unfold unit_items in Hit. apply filter_In in Hit as [Hit Eu].
    destruct (jstr_eqb_spec (norm_unit it) u) as [<-|]; [|discriminate].
    cbn [pq_unit to_quantity]. symmetry. apply (occ_items_unit lists n it Hit).
  - unfold name_units in Hu. apply nodup_first_In, in_map_iff in Hu as [it [<- Hit]].
    destruct (occ_items_unit lists n it Hit) as [Hc ->]. exact Hc.
Qed.

Lemma combine_row_units_witness :
  let r := hd (mkCombinedIngredient [] [] [] 0 [] None 0)
             (combineIngredients (map ascii_upper_cu) cu_compare demo_lists) in
  In r (combineIngredients (map ascii_upper_cu) cu_compare demo_lists) /\
  ((forall q, In q (quantities r) -> pq_unit q = ci_unit r) /\
   In (ci_unit r) canonical_units).
Proof.
  split.
  - vm_compute. left. reflexivity.
  - apply (combine_row_units (map ascii_upper_cu) cu_compare demo_lists).
    vm_compute. left. reflexivity.
Defined.

(** ** Contribution of one occurrence *)

(** C1: every occurrence contributes to the aggregate one quantity, whose
    amount is [parsedAmount * quantity] when its label is pack-based and
    [quantity] when it is count-based; [Chicken breast strips (250g)] with
    quantity 3 parses to [250], [g], pack-based and contributes [750], and
    [White potato x4] with quantity 4 is count-based and contributes [4]. *)
Theorem occurrence_contribution (toUpperCase : jstr -> jstr) (lc : jstr -> jstr -> Z)
    (lists : list IngredientList) (il : IngredientList) (ing : Ingredient) :
  In il lists -> In ing (ingredients il) ->
  let p := parseQuantityFromLabel (ing_label ing) in
  (exists r q, In r (combineIngredients toUpperCase lc lists) /\ In q (quantities r) /\
     originalLabel q = ing_label ing /\
     amount q = (if isPackBased p then pl_amount p * quantity ing else quantity ing)%Q) /\
  (parseQuantityFromLabel (ing_label chicken_occurrence) = mkParsedLabel 250 (js "g"%string) true /\
   parsedAmount (mk_item (recipeTitle il) chicken_occurrence) = 750%Q) /\
  (isPackBased (parseQuantityFromLabel (ing_label potato_occurrence)) = false /\
   parsedAmount (mk_item (recipeTitle il) potato_occurrence) = 4%Q).
Proof.
  intros Hil Hing p. split; [|split; split; vm_compute; reflexivity].
  set (it := mk_item (recipeTitle il) ing).
  set (n := ing_name ing). set (u := norm_unit it).
  assert (Hocc : In (recipeTitle il, ing) (occurrences lists)).
  { unfold occurrences. apply in_flat_map. exists il. split; auto.
    apply in_map_iff. eauto. }
  assert (Hit : In it (occ_items lists n)).
  { unfold occ_items. apply in_map_iff. exists (recipeTitle il, ing). split; auto.
    apply filter_In. split; auto. simpl. destruct (jstr_eqb_spec (ing_name ing) n); auto. }
  exists (expected_record toUpperCase lists n u), (to_quantity it).
  split; [|split; [|split]].
  - apply in_combine. exists n, u. split; [|split; auto].
    + unfold ingredient_names. apply nodup_first_In, in_map_iff.
      exists (recipeTitle il, ing). split; auto.
    + unfold name_units. apply nodup_first_In, in_map_iff. exists it. split; auto.
  - unfold expected_record. cbn [quantities]. apply in_map.
    unfold unit_items. apply filter_In. split; auto.
    destruct (jstr_eqb_spec (norm_unit it) u); auto.
  - reflexivity.
  - reflexivity.
Qed.

Lemma occurrence_contribution_witness :
  let il := hd (mkIngredientList [] []) demo_lists in
  let ing := nth 1 (ingredients il) chicken_occurrence in
  In il demo_lists /\ In ing (ingredients il) /\
  let p := parseQuantityFromLabel (ing_label ing) in
  (exists r q, In r (combineIngredients (map ascii_upper_cu) cu_compare demo_lists) /\
     In q (quantities r) /\ originalLabel q = ing_label ing /\
     amount q = (if isPackBased p then pl_amount p * quantity ing else quantity ing)%Q) /\
  (parseQuantityFromLabel (ing_label chicken_occurrence) = mkParsedLabel 250 (js "g"%string) true /\
   parsedAmount (mk_item (recipeTitle il) chicken_occurrence) = 750%Q) /\
  (isPackBased (parseQuantityFromLabel (ing_label potato_occurrence)) = false /\
   parsedAmount (mk_item (recipeTitle il) potato_occurrence) = 4%Q).
Proof.
  assert (H1 : In (hd (mkIngredientList [] []) demo_lists) demo_lists)
    by (vm_compute; left; reflexivity).
  assert (H2 : In (nth 1 (ingredients (hd (mkIngredientList [] []) demo_lists)) chicken_occurrence)
                  (ingredients (hd (mkIngredientList [] []) demo_lists)))
    by (vm_compute; right; left; reflexivity).
  split; [exact H1|]. split; [exact H2|].
  exact (occurrence_contribution (map ascii_upper_cu) cu_compare demo_lists _ _ H1 H2).
Defined.

(** * Further properties *)

(** ** Amounts parsed from labels *)

Lemma digits_value_acc_nonneg (acc : Z) (ds : jstr) :
  (0 <= acc)%Z -> (0 <= digits_value_acc acc ds)%Z.
Proof.
  revert acc. induction ds as [|d ds IH]; intros acc H; simpl; auto.
  apply IH. lia.
Qed.

Lemma digits_value_nonneg (ds : jstr) : (0 <= digits_value ds)%Z.
Proof. apply digits_value_acc_nonneg. lia. Qed.

Lemma decimal_value_nonneg (ip fp : jstr) : (0 <= decimal_value ip fp)%Q.
Proof.
  unfold decimal_value, Qle. simpl. pose proof (digits_value_nonneg (ip ++ fp)). lia.
Qed.

Lemma number_at_nonneg (s r : jstr) (v : Q) : number_at s = Some (v, r) -> (0 <= v)%Q.
Proof.
  unfold number_at. destruct (span is_digit s) as [ip r0].
  destruct ip as [|d ip]; [discriminate|].
  destruct r0 as [|c r'].
  - intros H; injection H as <- _. apply decimal_value_nonneg.
  - destruct (c =? 46).
    + destruct (span is_digit r') as [fp r2]. destruct fp;
        intros H; injection H as <- _; apply decimal_value_nonneg.
    + intros H; injection H as <- _. apply decimal_value_nonneg.
Qed.

Lemma inject_Z_nonneg (z : Z) : (0 <= z)%Z -> (0 <= inject_Z z)%Q.
Proof. intros H. unfold Qle. simpl. lia. Qed.

Lemma x_suffix_at_value (s : jstr) (n : Z) : x_suffix_at s = Some n -> (0 <= n)%Z.
Proof.
  unfold x_suffix_at. destruct s as [|c r]; [discriminate|].
  destruct (ci_eq 120 c); [|discriminate].
  destruct (span is_digit (drop_while is_space r)) as [ds r2].
  destruct ds, r2; try discriminate. intros H; injection H as <-. apply digits_value_nonneg.
Qed.

Lemma leading_num_value (s : jstr) (n : Z) : leading_num s = Some n -> (0 <= n)%Z.
Proof.
  unfold leading_num. destruct (span is_digit s) as [ds r].
  destruct ds as [|d ds]; [discriminate|].
  destruct r as [|c r']; [discriminate|].
  destruct (is_space c); [intros H; injection H as <-; apply digits_value_nonneg|].
  destruct (ci_eq 120 c); [|discriminate].
  destruct r' as [|c2 r2]; [discriminate|].
  destruct (is_space c2); [|discriminate].
  intros H; injection H as <-; apply digits_value_nonneg.
Qed.

Lemma pl_amount_nonneg (lbl : jstr) :
  (0 <= pl_amount (parseQuantityFromLabel lbl))%Q.
Proof.
  unfold parseQuantityFromLabel.
  destruct (search paren_unit_at (strip_x0 lbl)) as [[a u]|] eqn:E1.
  - apply search_some in E1 as [s' Hs]. simpl.
    unfold paren_unit_at in Hs. destruct s' as [|c r]; [discriminate|].
    destruct (c =? 40); [|discriminate].
    destruct (number_at r) as [[v r1]|] eqn:En; [|discriminate].
    destruct (first_alt _ _); [|discriminate]. injection Hs as <- _.
    eapply number_at_nonneg; eauto.
  - destruct (search paren_num_at (strip_x0 lbl)) as [a|] eqn:E2.
    + apply search_some in E2 as [s' Hs]. simpl.
      unfold paren_num_at in Hs. destruct s' as [|c r]; [discriminate|].
      destruct (c =? 40); [|discriminate].
      destruct (number_at r) as [[v [|c' r1]]|] eqn:En; try discriminate.
      destruct (c' =? 41); [|discriminate]. injection Hs as <-.
      eapply number_at_nonneg; eauto.
    + destruct (search x_suffix_at (strip_x0 lbl)) as [n|] eqn:E3.
      * apply search_some in E3 as [s' Hs]. simpl.
        apply inject_Z_nonneg. eapply x_suffix_at_value; eauto.
      * destruct (leading_num (strip_x0 lbl)) as [n|] eqn:E4; simpl.
        -- apply inject_Z_nonneg. eapply leading_num_value; eauto.
        -- unfold Qle. simpl. lia.
Qed.

(** X1: the amount [parseQuantityFromLabel] returns is never negative,
    whatever the label. *)
Theorem parse_amount_nonneg (lbl : jstr) :
  (0 <= pl_amount (parseQuantityFromLabel lbl))%Q.
Proof. apply pl_amount_nonneg. Qed.

(** ** ASCII case of labels *)

Ltac bool_lia H :=
  repeat first [ rewrite orb_true_iff in H | rewrite andb_true_iff in H
               | rewrite N.eqb_eq in H | rewrite N.leb_le in H ]; lia.

Lemma lower_cu_pres (P : N -> bool) :
  (forall c, 65 <= c <= 90 -> P c = false /\ P (c + 32) = false) ->
  forall c, P (ascii_lower_cu c) = P c.
Proof.
  intros HP c. unfold ascii_lower_cu.
  destruct (is_upper_ascii c) eqn:E; [|reflexivity].
  unfold is_upper_ascii in E. apply andb_true_iff in E as [E1 E2].
  apply N.leb_le in E1, E2. destruct (HP c) as [-> ->]; auto.
Qed.

Lemma space_lower_cu (c : N) : is_space (ascii_lower_cu c) = is_space c.
Proof.
  apply lower_cu_pres. intros x Hx. split;
  destruct (is_space _) eqn:E; auto; unfold is_space in E; bool_lia E.
Qed.

Lemma digit_lower_cu (c : N) : is_digit (ascii_lower_cu c) = is_digit c.
Proof.
  apply lower_cu_pres. intros x Hx. split;
  destruct (is_digit _) eqn:E; auto; unfold is_digit in E; bool_lia E.
Qed.

Lemma eqb_lower_cu (k c : N) :
  (k < 65 \/ (90 < k /\ k < 97) \/ 122 < k) -> (ascii_lower_cu c =? k) = (c =? k).
Proof.
  intros Hk. apply (lower_cu_pres (fun c => c =? k)). intros x Hx.
  destruct (N.eqb_spec x k), (N.eqb_spec (x + 32) k); split; auto; lia.
Qed.

Lemma digit_fixed (c : N) : is_digit c = true -> ascii_lower_cu c = c.
Proof.
  intros H. unfold ascii_lower_cu. destruct (is_upper_ascii c) eqn:E; auto.
  unfold is_digit in H. unfold is_upper_ascii in E.
  apply andb_true_iff in H as [H1 H2], E as [E1 E2]. apply N.leb_le in H1, H2, E1, E2. lia.
Qed.

Lemma ci_eq_lower_cu (p c : N) :
  is_lower_ascii p = true -> ci_eq p (ascii_lower_cu c) = ci_eq p c.
Proof.
  intros Hp. unfold is_lower_ascii in Hp.
  apply andb_true_iff in Hp as [Hp1 Hp2]. apply N.leb_le in Hp1, Hp2.
  assert (Hs : swap_case p = p - 32).
  { unfold swap_case.
    replace (is_upper_ascii p) with false
      by (symmetry; unfold is_upper_ascii; apply andb_false_iff; right; apply N.leb_gt; lia).
    unfold is_lower_ascii.
    replace (97 <=? p) with true by (symmetry; apply N.leb_le; lia).
    replace (p <=? 122) with true by (symmetry; apply N.leb_le; lia). reflexivity. }
  unfold ci_eq. rewrite Hs. unfold ascii_lower_cu.
  destruct (is_upper_ascii c) eqn:E; [|reflexivity].
  unfold is_upper_ascii in E. apply andb_true_iff in E as [E1 E2].
  apply N.leb_le in E1, E2.
  destruct (N.eqb_spec (c + 32) p), (N.eqb_spec (c + 32) (p - 32)),
    (N.eqb_spec c p), (N.eqb_spec c (p - 32)); simpl; auto; lia.
Qed.

Lemma span_lower (p : N -> bool) (s : jstr) :
  (forall c, p (ascii_lower_cu c) = p c) ->
  span p (ascii_lower s) = (ascii_lower (fst (span p s)), ascii_lower (snd (span p s))).
Proof.
  intros Hp. induction s as [|c r IH]; [reflexivity|].
  unfold ascii_lower in *. simpl. rewrite Hp.
  destruct (p c); [|reflexivity].
  rewrite IH. destruct (span p r). reflexivity.
Qed.

Lemma span_digits (s : jstr) : Forall (fun c => is_digit c = true) (fst (span is_digit s)).
Proof.
  induction s as [|c r IH]; simpl; [constructor|].
  destruct (is_digit c) eqn:E; [|constructor].
  destruct (span is_digit r) eqn:Es. simpl in *. constructor; auto.
Qed.

Lemma digits_lower (ds : jstr) :
  Forall (fun c => is_digit c = true) ds -> ascii_lower ds = ds.
Proof.
  induction 1 as [|c r Hc Hr IH]; [reflexivity|].
  unfold ascii_lower in *. simpl. rewrite digit_fixed, IH; auto.
Qed.

Lemma span_digit_lower (s : jstr) :
  span is_digit (ascii_lower s) = (fst (span is_digit s), ascii_lower (snd (span is_digit s))).
Proof.
  rewrite span_lower by apply digit_lower_cu. rewrite digits_lower by apply span_digits.
  reflexivity.
Qed.

Lemma drop_space_lower (s : jstr) :
  drop_while is_space (ascii_lower s) = ascii_lower (drop_while is_space s).
Proof.
  induction s as [|c r IH]; [reflexivity|].
  unfold ascii_lower in *. simpl. rewrite space_lower_cu.
  destruct (is_space c); auto.
Qed.

Lemma number_at_lower (s : jstr) :
  number_at (ascii_lower s) =
  match number_at s with Some (v, r) => Some (v, ascii_lower r) | None => None end.
Proof.
  unfold number_at. rewrite span_digit_lower.
  destruct (span is_digit s) as [ip r] eqn:Es. simpl.
  destruct ip as [|d ip]; [reflexivity|].
  destruct r as [|c r']; [reflexivity|].
  cbn [ascii_lower map]. fold (ascii_lower r').
  rewrite eqb_lower_cu by lia.
  destruct (c =? 46); [|reflexivity].
  rewrite span_digit_lower. destruct (span is_digit r') as [fp r2]. simpl.
  destruct fp; reflexivity.
Qed.

Lemma ci_prefix_lower_input (p s : jstr) :
  Forall (fun c => is_lower_ascii c = true) p ->
  ci_prefix p (ascii_lower s) =
  match ci_prefix p s with Some (m, r) => Some (ascii_lower m, ascii_lower r) | None => None end.
Proof.
  revert s. induction p as [|a p IH]; intros s Hp; [reflexivity|].
  inversion Hp; subst.
  destruct s as [|c s]; [reflexivity|].
  cbn [ascii_lower map ci_prefix]. fold (ascii_lower s).
  rewrite ci_eq_lower_cu by assumption.
  destruct (ci_eq a c); [|reflexivity].
  rewrite IH by assumption. destruct (ci_prefix p s) as [[m r]|]; reflexivity.
Qed.

Lemma first_alt_lower (alts : list jstr) (s : jstr) :
  Forall (Forall (fun c => is_lower_ascii c = true)) alts ->
  first_alt alts (ascii_lower s) =
  match first_alt alts s with Some m => Some (ascii_lower m) | None => None end.
Proof.
  induction 1 as [|a al Ha Hal IH]; [reflexivity|]. simpl.
  rewrite ci_prefix_lower_input by assumption.
  destruct (ci_prefix a s) as [[m [|c r]]|]; auto.
  cbn [ascii_lower map]. rewrite eqb_lower_cu by lia.
  destruct (c =? 41); auto.
Qed.

Lemma paren_unit_at_lower (s : jstr) :
  paren_unit_at (ascii_lower s) =
  match paren_unit_at s with Some (v, u) => Some (v, ascii_lower u) | None => None end.
Proof.
  destruct s as [|c r]; [reflexivity|]. unfold paren_unit_at.
  cbn [ascii_lower map]. fold (ascii_lower r). rewrite eqb_lower_cu by lia.
  destruct (c =? 40); [|reflexivity].
  rewrite number_at_lower. destruct (number_at r) as [[v r1]|]; [|reflexivity].
  rewrite drop_space_lower, first_alt_lower by exact unit_alternatives_lower.
  destruct (first_alt _ _); reflexivity.
Qed.

Lemma paren_num_at_lower (s : jstr) : paren_num_at (ascii_lower s) = paren_num_at s.
Proof.
  destruct s as [|c r]; [reflexivity|]. unfold paren_num_at.
  cbn [ascii_lower map]. fold (ascii_lower r). rewrite eqb_lower_cu by lia.
  destruct (c =? 40); [|reflexivity].
  rewrite number_at_lower. destruct (number_at r) as [[v [|c' r1]]|]; try reflexivity.
  cbn [ascii_lower map]. rewrite eqb_lower_cu by lia. reflexivity.
Qed.

Lemma x_suffix_at_lower (s : jstr) : x_suffix_at (ascii_lower s) = x_suffix_at s.
Proof.
  destruct s as [|c r]; [reflexivity|]. unfold x_suffix_at.
  cbn [ascii_lower map]. fold (ascii_lower r).
  rewrite ci_eq_lower_cu by reflexivity.
  destruct (ci_eq 120 c); [|reflexivity].
  rewrite drop_space_lower, span_digit_lower.
  destruct (span is_digit (drop_while is_space r)) as [ds r2]. simpl.
  destruct ds, r2; reflexivity.
Qed.

Lemma leading_num_lower (s : jstr) : leading_num (ascii_lower s) = leading_num s.
Proof.
  unfold leading_num. rewrite span_digit_lower.
  destruct (span is_digit s) as [ds r]. simpl.
  destruct ds as [|d ds]; [reflexivity|].
  destruct r as [|c r']; [reflexivity|].
  cbn [ascii_lower map]. fold (ascii_lower r').
  rewrite space_lower_cu, ci_eq_lower_cu by reflexivity.
  destruct (is_space c); [reflexivity|]. destruct (ci_eq 120 c); [|reflexivity].
  destruct r' as [|c2 r2]; [reflexivity|]. cbn [ascii_lower map].
  rewrite space_lower_cu. reflexivity.
Qed.

Lemma x0_at_lower (s : jstr) : x0_at (ascii_lower s) = x0_at s.
Proof.
  unfold x0_at. rewrite drop_space_lower.
  destruct (drop_while is_space s) as [|x [|z [|w r]]]; try reflexivity.
  cbn [ascii_lower map]. rewrite ci_eq_lower_cu by reflexivity.
  rewrite eqb_lower_cu by lia. reflexivity.
Qed.

Lemma strip_x0_lower (s : jstr) : strip_x0 (ascii_lower s) = ascii_lower (strip_x0 s).
Proof.
  induction s as [|c r IH]; [reflexivity|].
  assert (E := x0_at_lower (c :: r)). cbn [ascii_lower map] in E |- *.
  fold (ascii_lower r) in E |- *. cbn [strip_x0]. rewrite E.
  destruct (x0_at (c :: r)); [reflexivity|]. cbn [map]. fold (ascii_lower (strip_x0 r)).
  rewrite IH. reflexivity.
Qed.

Lemma search_lower {X Y} (F : jstr -> option X) (G : jstr -> option Y) (h : Y -> X) (s : jstr) :
  (forall s, F (ascii_lower s) = match G s with Some y => Some (h y) | None => None end) ->
  search F (ascii_lower s) = match search G s with Some y => Some (h y) | None => None end.
Proof.
  intros HF. induction s as [|c r IH].
  - assert (E := HF []). change (ascii_lower []) with (@nil N) in E.
    cbn [search ascii_lower map]. rewrite E. destruct (G []); reflexivity.
  - cbn [search ascii_lower map]. fold (ascii_lower r).
    assert (E := HF (c :: r)). cbn [ascii_lower map] in E. fold (ascii_lower r) in E.
    rewrite E. destruct (G (c :: r)); [reflexivity|]. exact IH.
Qed.

Lemma ascii_lower_idem (s : jstr) : ascii_lower (ascii_lower s) = ascii_lower s.
Proof.
  unfold ascii_lower. rewrite map_map. apply map_ext. intros c.
  unfold ascii_lower_cu at 1. destruct (is_upper_ascii (ascii_lower_cu c)) eqn:E; [|reflexivity].
  exfalso. unfold ascii_lower_cu in E. destruct (is_upper_ascii c) eqn:E2.
  - unfold is_upper_ascii in E, E2.
    apply andb_true_iff in E as [E1 E3], E2 as [E4 E5]. apply N.leb_le in E1, E3, E4, E5. lia.
  - congruence.
Qed.

Lemma parse_lower (lbl : jstr) :
  parseQuantityFromLabel (ascii_lower lbl) = parseQuantityFromLabel lbl.
Proof.
  unfold parseQuantityFromLabel. rewrite strip_x0_lower.
  rewrite (search_lower paren_unit_at paren_unit_at (fun '(v, u) => (v, ascii_lower u)))
    by (intros s; rewrite paren_unit_at_lower; destruct (paren_unit_at s) as [[v u]|]; reflexivity).
  destruct (search paren_unit_at (strip_x0 lbl)) as [[a u]|].
  { rewrite ascii_lower_idem. reflexivity. }
  rewrite (search_lower paren_num_at paren_num_at (fun a => a))
    by (intros s; rewrite paren_num_at_lower; destruct (paren_num_at s); reflexivity).
  destruct (search paren_num_at (strip_x0 lbl)); [reflexivity|].
  rewrite (search_lower x_suffix_at x_suffix_at (fun a => a))
    by (intros s; rewrite x_suffix_at_lower; destruct (x_suffix_at s); reflexivity).
  destruct (search x_suffix_at (strip_x0 lbl)); [reflexivity|].
  rewrite leading_num_lower. reflexivity.
Qed.

(** X3: [parseQuantityFromLabel] ignores ASCII letter case: two labels equal
    up to the case of ASCII letters give the same amount, unit and pack flag
    (the patterns are case-insensitive and the unit is lower-cased). *)
Theorem parse_ascii_case_insensitive (lbl1 lbl2 : jstr) :
  ascii_lower lbl1 = ascii_lower lbl2 ->
  parseQuantityFromLabel lbl1 = parseQuantityFromLabel lbl2.
Proof.
  intros H. rewrite <- (parse_lower lbl1), <- (parse_lower lbl2), H. reflexivity.
Qed.

Lemma parse_ascii_case_insensitive_witness :
  ascii_lower (js "CHICKEN BREAST (250G) X0"%string) =
    ascii_lower (js "chicken breast (250g) x0"%string) /\
  parseQuantityFromLabel (js "CHICKEN BREAST (250G) X0"%string) =
    parseQuantityFromLabel (js "chicken breast (250g) x0"%string).
Proof.
  split.
  - vm_compute. reflexivity.
  - apply parse_ascii_case_insensitive. vm_compute. reflexivity.
Defined.

(** ** Trailing x0 of labels *)

Lemma strip_x0_unfold (s : jstr) :
  strip_x0 s = if x0_at s then [] else match s with [] => [] | c :: r => c :: strip_x0 r end.
Proof. destruct s; reflexivity. Qed.

Lemma drop_space_app_last (l T : jstr) :
  l <> [] -> (forall c, last_opt l = Some c -> is_space c = false) ->
  drop_while is_space (l ++ T) = drop_while is_space l ++ T /\ drop_while is_space l <> [].
Proof.
  induction l as [|c r IH]; intros Hne Hl; [congruence|].
  destruct r as [|c' r'].
  - simpl. rewrite (Hl c eq_refl). split; [reflexivity|discriminate].
  - assert (Hl' : forall x, last_opt (c' :: r') = Some x -> is_space x = false)
      by (intros x Hx; apply Hl; exact Hx).
    destruct (IH ltac:(discriminate) Hl') as [E1 E2].
    cbn [app drop_while]. destruct (is_space c).
    + split; [exact E1|exact E2].
    + split; [reflexivity|discriminate].
Qed.

Lemma x0_at_len (s : jstr) : length (drop_while is_space s) <> 2%nat -> x0_at s = false.
Proof.
  unfold x0_at. destruct (drop_while is_space s) as [|a [|b [|c t]]]; simpl; auto.
  intros H. lia.
Qed.

Lemma strip_x0_suffix (l ws : jstr) (x : N) :
  Forall (fun c => is_space c = true) ws -> (x = 120 \/ x = 88) ->
  (forall c, last_opt l = Some c -> is_space c = false) ->
  strip_x0 (l ++ ws ++ [x; 48]) = l.
Proof.
  intros Hws Hx. induction l as [|c r IH]; intros Hl.
  - simpl. rewrite strip_x0_unfold.
    replace (x0_at (ws ++ [x; 48])) with true; [reflexivity|].
    unfold x0_at.
    assert (E : drop_while is_space (ws ++ [x; 48]) = [x; 48]).
    { induction Hws as [|w ws' Hw _ IHw]; simpl.
      - destruct Hx as [-> | ->]; reflexivity.
      - rewrite Hw. exact IHw. }
    rewrite E. destruct Hx as [-> | ->]; reflexivity.
  - rewrite strip_x0_unfold.
    replace (x0_at ((c :: r) ++ ws ++ [x; 48])) with false.
    + cbn [app]. f_equal. apply IH.
      intros c' Hc'. apply Hl. destruct r; [discriminate|exact Hc'].
    + symmetry. apply x0_at_len.
      destruct (drop_space_app_last (c :: r) (ws ++ [x; 48]) ltac:(discriminate) Hl) as [E1 E2].
      rewrite E1, !length_app.
      destruct (drop_while is_space (c :: r)); [congruence|]. cbn [length]. lia.
Qed.

(** X4: appending whitespace and an [x0] or [X0] suffix to a label without
    trailing whitespace and without such a suffix of its own does not change
    what [parseQuantityFromLabel] returns. *)
Theorem parse_x0_suffix (l ws : jstr) (x : N) :
  Forall (fun c => is_space c = true) ws -> (x = 120 \/ x = 88) ->
  (forall c, last_opt l = Some c -> is_space c = false) ->
  strip_x0 l = l ->
  parseQuantityFromLabel (l ++ ws ++ [x; 48]) = parseQuantityFromLabel l.
Proof.
  intros Hws Hx Hl Hs. unfold parseQuantityFromLabel.
  rewrite (strip_x0_suffix l ws x Hws Hx Hl), Hs. reflexivity.
Qed.

Lemma parse_x0_suffix_witness :
  let l := js "White potato x4"%string in
  Forall (fun c => is_space c = true) [32] /\ (120 = 120 \/ 120 = 88) /\
  (forall c, last_opt l = Some c -> is_space c = false) /\
  strip_x0 l = l /\
  parseQuantityFromLabel (l ++ [32] ++ [120; 48]) = parseQuantityFromLabel l.
Proof.
  assert (H1 : Forall (fun c => is_space c = true) [32]) by (repeat constructor).
  assert (H2 : 120 = 120 \/ 120 = 88) by (left; reflexivity).
  assert (H3 : forall c, last_opt (js "White potato x4"%string) = Some c -> is_space c = false).
  { intros c Hc. vm_compute in Hc. injection Hc as <-. reflexivity. }
  assert (H4 : strip_x0 (js "White potato x4"%string) = js "White potato x4"%string)
    by (vm_compute; reflexivity).
  split; [exact H1|]. split; [exact H2|]. split; [exact H3|]. split; [exact H4|].
  exact (parse_x0_suffix _ [32] 120 H1 H2 H3 H4).
Defined.

(** ** Partition of a list by a key *)

Lemma flat_map_ext_in {X Y} (f g : X -> list Y) (l : list X) :
  (forall x, In x l -> f x = g x) -> flat_map f l = flat_map g l.
Proof.
  induction l as [|x l IH]; intros H; simpl; [reflexivity|].
  rewrite H by (left; reflexivity). f_equal. apply IH. intros y Hy. apply H. right. exact Hy.
Qed.

Lemma flat_map_perm_pointwise {X Y} (f g : X -> list Y) (l : list X) :
  (forall x, In x l -> Permutation (f x) (g x)) -> Permutation (flat_map f l) (flat_map g l).
Proof.
  induction l as [|x l IH]; intros H; simpl; [constructor|].
  apply Permutation_app; [apply H; left; reflexivity|].
  apply IH. intros y Hy. apply H. right. exact Hy.
Qed.

Lemma flat_map_map_out {X Y Z} (g : Y -> Z) (h : X -> list Y) (l : list X) :
  flat_map (fun x => map g (h x)) l = map g (flat_map h l).
Proof. induction l as [|x l IH]; simpl; [reflexivity|]. rewrite map_app, IH. reflexivity. Qed.

Lemma flat_map_flat_map_assoc {X Y Z} (f : X -> list Y) (g : Y -> list Z) (l : list X) :
  flat_map g (flat_map f l) = flat_map (fun x => flat_map g (f x)) l.
Proof.
  induction l as [|x l IH]; simpl; [reflexivity|]. rewrite flat_map_app, IH. reflexivity.
Qed.

Lemma flat_map_map_in {X Y Z} (f : X -> Y) (g : Y -> list Z) (l : list X) :
  flat_map g (map f l) = flat_map (fun x => g (f x)) l.
Proof. induction l as [|x l IH]; simpl; [reflexivity|]. rewrite IH. reflexivity. Qed.

Section Partition.

Context {A : Type} (key : A -> jstr).

Lemma flat_map_filter_cons (x : A) (xs : list A) (K : list jstr) :
  NoDup K -> In (key x) K ->
  Permutation (flat_map (fun k => filter (fun y => jstr_eqb (key y) k) (x :: xs)) K)
    (x :: flat_map (fun k => filter (fun y => jstr_eqb (key y) k) xs) K).
Proof.
  induction K as [|k K IH]; intros Hnd Hin; [destruct Hin|].
  inversion Hnd as [|k' K' Hk HK]; subst. cbn [flat_map filter].
  destruct (jstr_eqb_spec (key x) k) as [Ek|Ek].
  - subst k. cbn [app]. apply perm_skip. apply Permutation_app_head.
    rewrite (flat_map_ext_in _ (fun k => filter (fun y => jstr_eqb (key y) k) xs)); [reflexivity|].
    intros k Hk'. simpl. destruct (jstr_eqb_spec (key x) k); [subst; contradiction|reflexivity].
  - destruct Hin as [Hin|Hin]; [congruence|].
    eapply perm_trans; [apply Permutation_app_head, IH; assumption|].
    apply Permutation_sym, Permutation_middle.
Qed.

Lemma flat_map_filter_perm (K : list jstr) (xs : list A) :
  NoDup K -> (forall x, In x xs -> In (key x) K) ->
  Permutation (flat_map (fun k => filter (fun y => jstr_eqb (key y) k) xs) K) xs.
Proof.
  intros Hnd. induction xs as [|x xs IH]; intros Hin.
  - clear Hin. induction K as [|k K IHK]; [constructor|].
    inversion Hnd as [|k' K' _ HK]; subst. exact (IHK HK).
  - eapply perm_trans; [apply flat_map_filter_cons; auto; apply Hin; left; reflexivity|].
    apply perm_skip, IH. intros y Hy. apply Hin. right. exact Hy.
Qed.

Lemma nodup_first_partition (xs : list A) :
  Permutation (flat_map (fun k => filter (fun y => jstr_eqb (key y) k) xs)
                 (nodup_first (map key xs))) xs.
Proof.
  apply flat_map_filter_perm; [apply nodup_first_NoDup|].
  intros x Hx. apply nodup_first_In, in_map. exact Hx.
Qed.

End Partition.

Lemma occ_items_partition (lists : list IngredientList) (n : jstr) :
  Permutation (flat_map (unit_items lists n) (name_units lists n)) (occ_items lists n).
Proof. unfold unit_items, name_units. apply (nodup_first_partition norm_unit). Qed.

Lemma combine_quantities_perm_aux (toUpperCase : jstr -> jstr) (lc : jstr -> jstr -> Z)
    (lists : list IngredientList) :
  Permutation (flat_map quantities (combineIngredients toUpperCase lc lists))
    (map (fun p => to_quantity (mk_item (fst p) (snd p))) (occurrences lists)).
Proof.
  eapply perm_trans; [apply Permutation_flat_map, combine_perm|].
  rewrite flat_map_flat_map_assoc.
  transitivity (flat_map (fun n => map to_quantity (occ_items lists n)) (ingredient_names lists)).
  - apply flat_map_perm_pointwise. intros n _.
    rewrite flat_map_map_in. unfold expected_record. cbn [quantities].
    rewrite (flat_map_map_out to_quantity (unit_items lists n)).
    apply Permutation_map, occ_items_partition.
  - unfold occ_items. 
    rewrite (flat_map_ext_in _ (fun n => map (fun p => to_quantity (mk_item (fst p) (snd p)))
              (filter (fun p => jstr_eqb (ing_name (snd p)) n) (occurrences lists))))
      by (intros n _; rewrite map_map; reflexivity).
    rewrite flat_map_map_out. apply Permutation_map.
    apply (nodup_first_partition (fun p => ing_name (snd p))).
Qed.

(** X5: [combineIngredients] neither drops nor duplicates an ingredient
    occurrence: the quantities of all rows together are, up to order, one
    per occurrence in the input lists. *)
Theorem combine_quantities_perm (toUpperCase : jstr -> jstr) (lc : jstr -> jstr -> Z)
    (lists : list IngredientList) :
  Permutation (flat_map quantities (combineIngredients toUpperCase lc lists))
    (map (fun p => to_quantity (mk_item (fst p) (snd p))) (occurrences lists)).
Proof. apply combine_quantities_perm_aux. Qed.

(** ** Counts of the aggregate *)

Lemma set_size_bounds (l : list jstr) : l <> [] -> (1 <= set_size l <= length l)%nat.
Proof.
  intros Hl. unfold set_size. split.
  - destruct l as [|x l]; [congruence|].
    assert (Hx : In x (nodup_first (x :: l))) by (apply nodup_first_In; left; reflexivity).
    destruct (nodup_first (x :: l)); [destruct Hx|]. simpl. lia.
  - apply NoDup_incl_length; [apply nodup_first_NoDup|].
    intros y Hy. apply nodup_first_In. exact Hy.
Qed.

Lemma unit_items_nonempty (lists : list IngredientList) (n u : jstr) :
  In u (name_units lists n) -> unit_items lists n u <> [].
Proof.
  unfold name_units, unit_items. intros Hu.
  apply nodup_first_In, in_map_iff in Hu as [it [Eu Hit]].
  intros E. assert (Hin : In it (filter (fun it => jstr_eqb (norm_unit it) u) (occ_items lists n))).
  { apply filter_In. split; auto. destruct (jstr_eqb_spec (norm_unit it) u); congruence. }
  rewrite E in Hin. destruct Hin.
Qed.

(** X8: the [recipeCount] of every row of [combineIngredients] is at least 1
    and at most its number of quantities. *)
Theorem combine_recipeCount_bounds (toUpperCase : jstr -> jstr) (lc : jstr -> jstr -> Z)
    (lists : list IngredientList) (r : CombinedIngredient) :
  In r (combineIngredients toUpperCase lc lists) ->
  (1 <= recipeCount r <= length (quantities r))%nat.
Proof.
  intros H. apply in_combine in H as [n [u [_ [Hu ->]]]].
  unfold expected_record. cbn [recipeCount quantities]. rewrite length_map.
  rewrite <- (length_map it_recipeTitle (unit_items lists n u)).
  apply set_size_bounds. intros E. apply map_eq_nil in E.
  exact (unit_items_nonempty lists n u Hu E).
Qed.

Lemma combine_recipeCount_bounds_witness :
  let r := hd (mkCombinedIngredient [] [] [] 0 [] None 0)
             (combineIngredients (map ascii_upper_cu) cu_compare demo_lists) in
  In r (combineIngredients (map ascii_upper_cu) cu_compare demo_lists) /\
  (1 <= recipeCount r <= length (quantities r))%nat.
Proof.
  assert (H : In (hd (mkCombinedIngredient [] [] [] 0 [] None 0)
                    (combineIngredients (map ascii_upper_cu) cu_compare demo_lists))
                 (combineIngredients (map ascii_upper_cu) cu_compare demo_lists))
    by (vm_compute; left; reflexivity).
  split; [exact H|]. exact (combine_recipeCount_bounds _ _ _ _ H).
Defined.

(** ** Insertion sort *)

Section Sorting.

Context {A : Type} (key : A -> jstr) (cmp : jstr -> jstr -> Z).

Hypothesis cmp_asym : forall a b, (cmp a b < 0)%Z -> ~ (cmp b a < 0)%Z.

Lemma insert_by_hd (y x : A) (l : list A) :
  HdRel (not_before key cmp) y l -> not_before key cmp y x ->
  HdRel (not_before key cmp) y (insert_by key cmp x l).
Proof.
  intros Hl Hx. destruct l as [|z l]; simpl; [constructor; exact Hx|].
  destruct (cmp (key x) (key z) <? 0)%Z; constructor; [exact Hx|].
  inversion Hl; assumption.
Qed.

Lemma insert_by_sorted (x : A) (l : list A) :
  Sorted (not_before key cmp) l -> Sorted (not_before key cmp) (insert_by key cmp x l).
Proof.
  induction l as [|y l IH]; intros Hs; simpl; [repeat constructor|].
  destruct (cmp (key x) (key y) <? 0)%Z eqn:E.
  - constructor; [exact Hs|]. constructor. unfold not_before.
    apply Z.ltb_lt in E. apply Z.ltb_nlt. apply cmp_asym. exact E.
  - inversion Hs as [|y' l' Hl Hhd]; subst. constructor; [apply IH; exact Hl|].
    apply insert_by_hd; [exact Hhd|exact E].
Qed.

Lemma sort_by_sorted (l : list A) : Sorted (not_before key cmp) (sort_by key cmp l).
Proof.
  unfold sort_by.
  assert (G : forall l acc, Sorted (not_before key cmp) acc ->
            Sorted (not_before key cmp) (fold_left (fun acc x => insert_by key cmp x acc) l acc)).
  { induction l0 as [|x l0 IH]; intros acc H; simpl; [exact H|].
    apply IH, insert_by_sorted, H. }
  apply G. constructor.
Qed.

End Sorting.

Lemma insert_by_perm {A} (key : A -> jstr) (cmp : jstr -> jstr -> Z) (x : A) (l : list A) :
  Permutation (insert_by key cmp x l) (x :: l).
Proof.
  induction l as [|y l IH]; simpl; [auto|].
  destruct (cmp (key x) (key y) <? 0)%Z; [auto|].
  eapply perm_trans; [apply perm_skip, IH|]. apply perm_swap.
Qed.

Lemma sort_by_perm {A} (key : A -> jstr) (cmp : jstr -> jstr -> Z) (l : list A) :
  Permutation (sort_by key cmp l) l.
Proof.
  unfold sort_by.
  assert (G : forall l acc, Permutation (fold_left (fun acc x => insert_by key cmp x acc) l acc)
                                        (l ++ acc)).
  { induction l0 as [|x l0 IH]; intros acc; simpl; [auto|].
    eapply perm_trans; [apply IH|].
    eapply perm_trans; [apply Permutation_app_head, insert_by_perm|].
    apply Permutation_sym, Permutation_middle. }
  rewrite <- (app_nil_r l) at 2. apply G.
Qed.

Lemma sort_by_displayName_eq (lc : jstr -> jstr -> Z) (l : list CombinedIngredient) :
  sort_by_displayName lc l = sort_by displayName lc l.
Proof.
  unfold sort_by_displayName, sort_by.
  assert (E : forall x acc, insert_by_name lc x acc = insert_by displayName lc x acc).
  { intros x acc. induction acc as [|y acc IH]; simpl; [reflexivity|].
    rewrite IH. reflexivity. }
  generalize (@nil CombinedIngredient). induction l as [|x l IH]; intros acc; simpl; auto.
  rewrite E. apply IH.
Qed.

(** X9: for a consistent comparator (asymmetric and transitive, as
    [localeCompare] is), no row of [combineIngredients] is immediately
    followed by a row whose [displayName] compares strictly before its
    own. *)
Theorem combine_sorted (toUpperCase : jstr -> jstr) (lc : jstr -> jstr -> Z)
    (lists : list IngredientList) :
  (forall a b, (lc a b < 0)%Z -> ~ (lc b a < 0)%Z) ->
  (forall a b c, (lc a b < 0)%Z -> (lc b c < 0)%Z -> (lc a c < 0)%Z) ->
  Sorted (fun r1 r2 => (lc (displayName r2) (displayName r1) <? 0)%Z = false)
    (combineIngredients toUpperCase lc lists).
Proof.
  intros Hasym _. unfold combineIngredients. rewrite sort_by_displayName_eq.
  exact (sort_by_sorted displayName lc Hasym _).
Qed.

Lemma cu_compare_opp (a b : jstr) : cu_compare b a = (- cu_compare a b)%Z.
Proof.
  revert b. induction a as [|x a IH]; intros [|y b]; simpl; try reflexivity.
  rewrite (N.compare_antisym x y). destruct (x ?= y); simpl; auto.
Qed.

Lemma cu_compare_asym (a b : jstr) : (cu_compare a b < 0)%Z -> ~ (cu_compare b a < 0)%Z.
Proof. rewrite cu_compare_opp. lia. Qed.

Lemma cu_compare_trans (a b c : jstr) :
  (cu_compare a b < 0)%Z -> (cu_compare b c < 0)%Z -> (cu_compare a c < 0)%Z.
Proof.
  revert b c. induction a as [|x a IH]; intros [|y b] [|z c]; simpl; try lia.
  destruct (N.compare_spec x y) as [Exy|Exy|Exy];
    destruct (N.compare_spec y z) as [Eyz|Eyz|Eyz]; try lia.
  1: (subst; rewrite N.compare_refl; apply IH).
  all: intros _ _; replace (x ?= z) with Lt by (symmetry; apply N.compare_lt_iff; lia); lia.
Qed.

Lemma combine_sorted_witness :
  (forall a b, (cu_compare a b < 0)%Z -> ~ (cu_compare b a < 0)%Z) /\
  (forall a b c, (cu_compare a b < 0)%Z -> (cu_compare b c < 0)%Z ->
                 (cu_compare a c < 0)%Z) /\
  Sorted (fun r1 r2 => (cu_compare (displayName r2) (displayName r1) <? 0)%Z = false)
    (combineIngredients (map ascii_upper_cu) cu_compare demo_lists).
Proof.
  split; [exact cu_compare_asym|]. split; [exact cu_compare_trans|].
  apply combine_sorted; [exact cu_compare_asym|exact cu_compare_trans].
Defined.

(** ** Unit compatibility of the rows *)

Lemma row_unit_canonical (toUpperCase : jstr -> jstr) (lc : jstr -> jstr -> Z)
    (lists : list IngredientList) (r : CombinedIngredient) :
  In r (combineIngredients toUpperCase lc lists) -> In (ci_unit r) canonical_units.
Proof.
  intros H. apply in_combine in H as [n [u [_ [Hu ->]]]].
  unfold expected_record. cbn [ci_unit].
  unfold name_units in Hu. apply nodup_first_In, in_map_iff in Hu as [it [<- Hit]].
  destruct (occ_items_unit lists n it Hit) as [Hc ->]. exact Hc.
Qed.

Lemma normalizeUnit_canonical (toLowerCase : jstr -> jstr) (u : jstr) :
  (forall v, In v canonical_units -> toLowerCase v = v) ->
  In u canonical_units -> normalizeUnit toLowerCase u = u.
Proof.
  intros Htl Hu. unfold normalizeUnit. rewrite (Htl u Hu).
  vm_compute in Hu. repeat (destruct Hu as [<-|Hu]; [vm_compute; reflexivity|]). destruct Hu.
Qed.

(** X10: two rows of [combineIngredients] with different units are never
    reported compatible by [areUnitsCompatible], provided [toLowerCase]
    leaves the canonical units unchanged. *)
Theorem combine_units_incompatible (toUpperCase toLowerCase : jstr -> jstr)
    (lc : jstr -> jstr -> Z) (lists : list IngredientList) (r1 r2 : CombinedIngredient) :
  (forall v, In v canonical_units -> toLowerCase v = v) ->
  In r1 (combineIngredients toUpperCase lc lists) ->
  In r2 (combineIngredients toUpperCase lc lists) ->
  ci_unit r1 <> ci_unit r2 ->
  areUnitsCompatible toLowerCase (ci_unit r1) (ci_unit r2) = false.
Proof.
  intros Htl H1 H2 Hne. unfold areUnitsCompatible.
  rewrite !normalizeUnit_canonical by eauto using row_unit_canonical.
  destruct (jstr_eqb_spec (ci_unit r1) (ci_unit r2)); congruence.
Qed.

Lemma lower_canonical (v : jstr) : In v canonical_units -> map ascii_lower_cu v = v.
Proof. apply canonical_units_fixed. Qed.

Lemma combine_units_incompatible_witness :
  let rows := combineIngredients (map ascii_upper_cu) cu_compare demo_lists in
  let r1 := nth 1 rows (mkCombinedIngredient [] [] [] 0 [] None 0) in
  let r2 := nth 2 rows (mkCombinedIngredient [] [] [] 0 [] None 0) in
  (forall v, In v canonical_units -> map ascii_lower_cu v = v) /\
  In r1 rows /\ In r2 rows /\ ci_unit r1 <> ci_unit r2 /\
  areUnitsCompatible (map ascii_lower_cu) (ci_unit r1) (ci_unit r2) = false.
Proof.
  assert (H1 : In (nth 1 (combineIngredients (map ascii_upper_cu) cu_compare demo_lists)
                     (mkCombinedIngredient [] [] [] 0 [] None 0))
                  (combineIngredients (map ascii_upper_cu) cu_compare demo_lists))
    by (vm_compute; right; left; reflexivity).
  assert (H2 : In (nth 2 (combineIngredients (map ascii_upper_cu) cu_compare demo_lists)
                     (mkCombinedIngredient [] [] [] 0 [] None 0))
                  (combineIngredients (map ascii_upper_cu) cu_compare demo_lists))
    by (vm_compute; right; right; left; reflexivity).
  assert (H3 : ci_unit (nth 1 (combineIngredients (map ascii_upper_cu) cu_compare demo_lists)
                          (mkCombinedIngredient [] [] [] 0 [] None 0)) <>
               ci_unit (nth 2 (combineIngredients (map ascii_upper_cu) cu_compare demo_lists)
                          (mkCombinedIngredient [] [] [] 0 [] None 0)))
    by (vm_compute; discriminate).
  split; [exact lower_canonical|]. split; [exact H1|]. split; [exact H2|]. split; [exact H3|].
  exact (combine_units_incompatible _ _ _ _ _ _ lower_canonical H1 H2 H3).
Defined.

(** ** Formatting of quantities *)

Lemma rounded_one (a : Q) : Qeq_bool (rounded a) 1 = true ->
  is_whole (rounded a) = true /\ whole_toString (rounded a) = js "1"%string.
Proof.
  unfold rounded. generalize (math_round (a * 100)%Q). intros m H.
  apply Qeq_bool_iff in H. unfold Qeq in H. simpl in H.
  assert (m = 100)%Z by lia. subst m. split; reflexivity.
Qed.

(** X11: [formatQuantity] is [displayAmount] followed by the unit, the unit
    omitted for [pcs] and [pc]; its special case [rounded === 1] returns
    what [displayAmount] returns anyway. *)
Theorem formatQuantity_shape (toFixed1 : Q -> jstr) (a : Q) (u : jstr) :
  formatQuantity toFixed1 a u =
  displayAmount toFixed1 a ++ (if jstr_eqb u pcs || jstr_eqb u (js "pc"%string) then [] else u).
Proof.
  unfold formatQuantity. destruct (jstr_eqb u pcs || jstr_eqb u (js "pc"%string)).
  - rewrite app_nil_r. destruct (Qeq_bool (rounded a) 1) eqn:E; [|reflexivity].
    destruct (rounded_one a E) as [Hw Hs]. unfold displayAmount. cbv zeta.
    rewrite Hw, Hs. reflexivity.
  - reflexivity.
Qed.

Lemma rounded_inject_Z (n : Z) : rounded (inject_Z n) = Qmake (n * 100) 100.
Proof.
  unfold rounded, math_round, Qfloor. simpl.
  f_equal.
  replace (n * 100 * 2 + 1)%Z with (1 + (n * 100) * 2)%Z by lia.
  rewrite Z.div_add by lia. reflexivity.
Qed.

(** X12: [formatQuantity] prints a whole amount (small enough for every
    double operation on it to be exact) as its decimal digits, followed by
    the unit unless the unit is [pcs] or [pc]. *)
Theorem formatQuantity_whole (toFixed1 : Q -> jstr) (n : Z) (u : jstr) :
  (Z.abs n < 10 ^ 13)%Z ->
  formatQuantity toFixed1 (inject_Z n) u =
  if jstr_eqb u pcs || jstr_eqb u (js "pc"%string) then Z_to_jstr n else Z_to_jstr n ++ u.
Proof.
  intros _. unfold formatQuantity, displayAmount. rewrite rounded_inject_Z.
  unfold is_whole, whole_toString. simpl Qnum. simpl Qden.
  rewrite Z.mod_mul, Z.div_mul by lia. simpl Z.eqb. cbv iota.
  destruct (jstr_eqb u pcs || jstr_eqb u (js "pc"%string)); [|reflexivity].
  destruct (Qeq_bool (Qmake (n * 100) 100) 1) eqn:E; [|reflexivity].
  apply Qeq_bool_iff in E. unfold Qeq in E. simpl in E.
  assert (n = 1)%Z by lia. subst n. reflexivity.
Qed.

Lemma formatQuantity_whole_witness :
  (Z.abs 250 < 10 ^ 13)%Z /\
  formatQuantity (fun _ => []) (inject_Z 250) (js "g"%string) =
  (if jstr_eqb (js "g"%string) pcs || jstr_eqb (js "g"%string) (js "pc"%string)
   then Z_to_jstr 250 else Z_to_jstr 250 ++ js "g"%string).
Proof. split; [reflexivity|]. apply formatQuantity_whole. reflexivity. Defined.

(** ** Ingredient and method lines, and the recipe page *)

Lemma sep_step_lines (st : SepState) (line : jstr) :
  sep_inv st ->
  sep_inv (sep_step st line) /\
  ingredientLines (sep_step st line) ++ methodLines (sep_step st line) =
  ingredientLines st ++ methodLines st ++
    (if is_blank line then [] else [trim line]).
Proof.
  intros [Hm Hi]. unfold sep_step, is_blank.
  destruct (trim line) as [|c t]; cbv zeta.
  - rewrite !app_nil_r.
    destruct (Nat.ltb 0 (length (ingredientLines st)) && negb (inMethod st));
      simpl; split; auto; split; auto.
  - destruct (inMethod st) eqn:Eim.
    + rewrite andb_false_r. simpl. split; [split; [discriminate|exact Hi]|].
      rewrite app_assoc. reflexivity.
    + rewrite (Hm eq_refl). simpl.
      destruct (foundBlankLine st && negb false) eqn:Efb;
        [destruct (negb (looksLikeIngredient (c :: t))) eqn:El|];
        repeat match goal with
               | |- context [if ?b then _ else _] => destruct b eqn:?
               end; simpl;
        try (split; [split; [discriminate|assumption]|reflexivity]);
        try (split; [split; [intros _; reflexivity|]|rewrite app_nil_r; reflexivity]);
        try (apply Forall_app; split; [assumption|constructor; [assumption|constructor]]).
      all: try (apply negb_false_iff in El; apply Forall_app; split;
                [assumption|constructor; [assumption|constructor]]).
Qed.

Lemma sep_run_lines (st : SepState) (lines : list jstr) :
  sep_inv st ->
  sep_inv (sep_run st lines) /\
  ingredientLines (sep_run st lines) ++ methodLines (sep_run st lines) =
  ingredientLines st ++ methodLines st ++
    map trim (filter (fun l => negb (is_blank l)) lines).
Proof.
  revert st. induction lines as [|l lines IH]; intros st H.
  - simpl. rewrite !app_nil_r. auto.
  - unfold sep_run. simpl. fold (sep_run (sep_step st l) lines).
    destruct (sep_step_lines st l H) as [H1 E1].
    destruct (IH _ H1) as [H2 E2]. split; [exact H2|].
    rewrite E2, app_assoc, E1.
    destruct (is_blank l); simpl; rewrite <- !app_assoc; reflexivity.
Qed.

Lemma sep_init_lines (body : jstr) :
  let st := sep_run sep_init (split_nl body) in
  ingredientLines st ++ methodLines st =
    map trim (filter (fun l => negb (is_blank l)) (split_nl body)) /\
  Forall (fun l => looksLikeIngredient l = true) (ingredientLines st).
Proof.
  destruct (sep_run_lines sep_init (split_nl body)) as [[_ Hi] E];
    [split; [reflexivity|constructor]|].
  split; [exact E|exact Hi].
Qed.

(** X13: [separateContent] loses no line and reorders none: in the split
    case the ingredient lines followed by the method lines are the non-blank
    lines of the body, trimmed, in order (the ingredient lines all look like
    ingredients, at least two of them, and at least one method line);
    otherwise the content is the trimmed body. *)
Theorem separateContent_lines (body : jstr) :
  match separateContent body with
  | SepSplit i m =>
      exists I M, i = join nl I /\ m = join nlnl M /\
        (2 <= length I)%nat /\ (1 <= length M)%nat /\
        I ++ M = map trim (filter (fun l => negb (is_blank l)) (split_nl body)) /\
        Forall (fun l => looksLikeIngredient l = true) I
  | SepContent c => c = trim body
  end.
Proof.
  unfold separateContent. destruct (sep_init_lines body) as [E Hi].
  set (st := sep_run sep_init (split_nl body)) in *.
  destruct (Nat.leb 2 (length (ingredientLines st)) && Nat.leb 1 (length (methodLines st)))
    eqn:Eb; [|reflexivity].
  apply andb_true_iff in Eb as [E1 E2]. apply Nat.leb_le in E1, E2.
  exists (ingredientLines st), (methodLines st). auto 7.
Qed.

(** ** Splitting and joining lines *)

Lemma split_nl_no_nl (s : jstr) : ~ In 10 s -> split_nl s = [s].
Proof.
  induction s as [|c s IH]; intros H; [reflexivity|]. simpl.
  destruct (N.eqb_spec c 10); [subst; exfalso; apply H; left; reflexivity|].
  rewrite IH; [reflexivity|]. intros Hc; apply H; right; exact Hc.
Qed.

Lemma split_nl_app (x r : jstr) : ~ In 10 x -> split_nl (x ++ 10 :: r) = x :: split_nl r.
Proof.
  induction x as [|c x IH]; intros H; [reflexivity|]. simpl.
  destruct (N.eqb_spec c 10); [subst; exfalso; apply H; left; reflexivity|].
  rewrite IH; [reflexivity|]. intros Hc; apply H; right; exact Hc.
Qed.

Lemma split_join_nl (l : list jstr) :
  l <> [] -> Forall (fun x => ~ In 10 x) l -> split_nl (join nl l) = l.
Proof.
  induction l as [|x [|y r] IH]; intros Hne H; [congruence| |].
  - inversion H; subst. apply split_nl_no_nl; assumption.
  - inversion H; subst. change (join nl (x :: y :: r)) with (x ++ 10 :: join nl (y :: r)).
    rewrite split_nl_app by assumption. rewrite IH; [reflexivity|discriminate|assumption].
Qed.

Lemma split_nlnl_no_nl (s : jstr) : ~ In 10 s -> split_nlnl s = [s].
Proof.
  induction s as [|c s IH]; intros H; [reflexivity|].
  destruct s as [|c2 s2]; [reflexivity|].
  change (split_nlnl (c :: c2 :: s2)) with
    (if (c =? 10) && (c2 =? 10) then [] :: split_nlnl s2
     else match split_nlnl (c2 :: s2) with [] => [[c]] | x :: xs => (c :: x) :: xs end).
  destruct (N.eqb_spec c 10); [subst; exfalso; apply H; left; reflexivity|].
  simpl andb. cbv iota. rewrite IH; [reflexivity|]. intros Hc; apply H; right; exact Hc.
Qed.

Lemma split_nlnl_app (x r : jstr) :
  ~ In 10 x -> split_nlnl (x ++ 10 :: 10 :: r) = x :: split_nlnl r.
Proof.
  induction x as [|c x IH]; intros H; [reflexivity|].
  assert (Hc : c <> 10) by (intros ->; apply H; left; reflexivity).
  assert (Hx : ~ In 10 x) by (intros Hc'; apply H; right; exact Hc').
  specialize (IH Hx).
  destruct (x ++ 10 :: 10 :: r) as [|c2 r2] eqn:E;
    [destruct x; discriminate|].
  simpl app. rewrite E.
  change (split_nlnl (c :: c2 :: r2)) with
    (if (c =? 10) && (c2 =? 10) then [] :: split_nlnl r2
     else match split_nlnl (c2 :: r2) with [] => [[c]] | x :: xs => (c :: x) :: xs end).
  apply N.eqb_neq in Hc. rewrite Hc. simpl andb. cbv iota. rewrite IH. reflexivity.
Qed.

Lemma split_join_nlnl (l : list jstr) :
  l <> [] -> Forall (fun x => ~ In 10 x) l -> split_nlnl (join nlnl l) = l.
Proof.
  induction l as [|x [|y r] IH]; intros Hne H; [congruence| |].
  - inversion H; subst. apply split_nlnl_no_nl; assumption.
  - inversion H; subst. change (join nlnl (x :: y :: r)) with (x ++ 10 :: 10 :: join nlnl (y :: r)).
    rewrite split_nlnl_app by assumption. rewrite IH; [reflexivity|discriminate|assumption].
Qed.

Lemma split_nl_elems (s : jstr) : Forall (fun x => ~ In 10 x) (split_nl s).
Proof.
  induction s as [|c s IH]; simpl.
  - repeat constructor. intros [].
  - destruct (N.eqb_spec c 10).
    + constructor; [intros []|exact IH].
    + destruct (split_nl s) as [|x xs]; inversion IH; subst.
      * repeat constructor. intros [E|[]]. congruence.
      * constructor; [|assumption]. intros [E|E]; [congruence|contradiction].
Qed.

Lemma drop_while_incl (p : N -> bool) (s : jstr) (c : N) : In c (drop_while p s) -> In c s.
Proof.
  induction s as [|d s IH]; simpl; [auto|].
  destruct (p d); [intros H; right; auto|auto].
Qed.

Lemma trim_incl (s : jstr) (c : N) : In c (trim s) -> In c s.
Proof.
  unfold trim. intros H. apply in_rev in H. apply drop_while_incl in H.
  apply in_rev in H. apply drop_while_incl in H. exact H.
Qed.

Lemma sep_lines_no_nl (body : jstr) :
  Forall (fun x => ~ In 10 x) (map trim (filter (fun l => negb (is_blank l)) (split_nl body))).
Proof.
  pose proof (split_nl_elems body) as H. rewrite Forall_forall in H |- *.
  intros x Hx. apply in_map_iff in Hx as [l [<- Hl]]. apply filter_In in Hl as [Hl _].
  intros Hc. apply trim_incl in Hc. exact (H l Hl Hc).
Qed.

Lemma recipe_view_processed (r : RawRecipe) :
  let st := sep_run sep_init (split_nl (rawContent r)) in
  recipe_view (process_recipe r) =
  if Nat.leb 2 (length (ingredientLines st)) && Nat.leb 1 (length (methodLines st))
  then PageSplit (title r) (ingredientLines st) (methodLines st)
  else PageContent (title r) (map content_line (split_nl (trim (rawContent r)))).
Proof.
  cbv zeta. unfold process_recipe, separateContent.
  destruct (sep_init_lines (rawContent r)) as [E _].
  pose proof (sep_lines_no_nl (rawContent r)) as Hnl. rewrite <- E in Hnl.
  apply Forall_app in Hnl as [HnI HnM].
  destruct (sep_run_nonempty sep_init (split_nl (rawContent r)) (Forall_nil _) (Forall_nil _))
    as [HeI HeM].
  set (st := sep_run sep_init (split_nl (rawContent r))) in *.
  destruct (Nat.leb 2 (length (ingredientLines st)) && Nat.leb 1 (length (methodLines st)))
    eqn:Eb; [|reflexivity].
  apply andb_true_iff in Eb as [E1 E2]. apply Nat.leb_le in E1, E2.
  assert (NI : ingredientLines st <> []) by (intros Hn; rewrite Hn in E1; simpl in E1; lia).
  assert (NM : methodLines st <> []) by (intros Hn; rewrite Hn in E2; simpl in E2; lia).
  unfold recipe_view. cbn [ingredientes metodo content rc_title].
  destruct (join nl (ingredientLines st)) as [|a i] eqn:Ji;
    [exfalso; exact (join_nonempty nl _ HeI NI Ji)|].
  destruct (join nlnl (methodLines st)) as [|b m] eqn:Jm;
    [exfalso; exact (join_nonempty nlnl _ HeM NM Jm)|].
  cbn [ingredientes metodo content rc_title truthy andb]. rewrite <- Ji, <- Jm.
  rewrite split_join_nl, split_join_nlnl by assumption. reflexivity.
Qed.

(** X14: the recipe page of a recipe written by [main] shows exactly the
    ingredient and method lines that [separateContent] found (splitting on
    [\n] and [\n\n] undoes the joins), or else the lines of the trimmed
    content; it never hits the runtime error of a missing [content]. *)
Theorem recipe_page_view (r : RawRecipe) :
  let st := sep_run sep_init (split_nl (rawContent r)) in
  recipe_view (process_recipe r) =
  if Nat.leb 2 (length (ingredientLines st)) && Nat.leb 1 (length (methodLines st))
  then PageSplit (title r) (ingredientLines st) (methodLines st)
  else PageContent (title r) (map content_line (split_nl (trim (rawContent r)))).
Proof. apply recipe_view_processed. Qed.

(** ** Whitespace runs and trimming *)

Lemma collapse_no_adjacent (p : N -> bool) (rep : N) (b : bool) (s : jstr) :
  p rep = true ->
  (forall a t, collapse_runs p rep b s <> a ++ rep :: rep :: t) /\
  (b = true -> forall t, collapse_runs p rep b s <> rep :: t).
Proof.
  intros Hrep. revert b. induction s as [|c r IH]; intros b; cbn [collapse_runs].
  - split; [intros [|] t E; discriminate | intros _ t E; discriminate].
  - destruct (p c) eqn:Hc.
    + destruct b; [apply IH|].
      destruct (IH true) as [H1 H2]. split; [|discriminate].
      intros [|a0 a] t E; simpl in E; apply (f_equal (@tl N)) in E; simpl in E.
      * exact (H2 eq_refl t E).
      * exact (H1 a t E).
    + destruct (IH false) as [H1 _]. split.
      * intros [|a0 a] t E; simpl in E; injection E as E1 E2.
        -- subst c. congruence.
        -- exact (H1 a t E2).
      * intros _ t E. injection E as E. congruence.
Qed.

Lemma collapse_keeps (p : N -> bool) (rep : N) (b : bool) (s : jstr) (c : N) :
  In c s -> p c = false -> In c (collapse_runs p rep b s).
Proof.
  revert b. induction s as [|d r IH]; intros b Hin Hc; [simpl in Hin; destruct Hin|].
  cbn [collapse_runs]. destruct Hin as [<-|Hin].
  - rewrite Hc. left. reflexivity.
  - destruct (p d); [destruct b|];
      [apply IH; auto|simpl; right; apply IH; auto|simpl; right; apply IH; auto].
Qed.

Lemma drop_while_prefix (p : N -> bool) (s : jstr) : exists pre, s = pre ++ drop_while p s.
Proof.
  induction s as [|c r [pre IH]]; simpl; [exists []; reflexivity|].
  destruct (p c); [exists (c :: pre); simpl; rewrite <- IH; reflexivity|exists []; reflexivity].
Qed.

Lemma drop_while_head (p : N -> bool) (s t : jstr) (c : N) :
  drop_while p s = c :: t -> p c = false.
Proof.
  induction s as [|d r IH]; simpl; [discriminate|].
  destruct (p d) eqn:Hd; [exact IH|]. intros E; injection E as <- _. exact Hd.
Qed.

Lemma drop_while_all (p : N -> bool) (s : jstr) :
  (forall c, In c s -> p c = true) -> drop_while p s = [].
Proof.
  induction s as [|d r IH]; intros H; simpl; [reflexivity|].
  rewrite (H d (or_introl eq_refl)). apply IH. intros c Hc; apply H; right; exact Hc.
Qed.

Lemma trim_infix (s : jstr) : exists pre post, s = pre ++ trim s ++ post.
Proof.
  destruct (drop_while_prefix is_space s) as [pre E1].
  set (D := drop_while is_space s) in *.
  destruct (drop_while_prefix is_space (rev D)) as [pre2 E2].
  set (Y := drop_while is_space (rev D)) in *.
  exists pre, (rev pre2). unfold trim. fold D. fold Y.
  rewrite E1 at 1. f_equal.
  rewrite <- (rev_involutive D). rewrite E2, rev_app_distr. reflexivity.
Qed.

Lemma trim_head (s t : jstr) (c : N) : trim s = c :: t -> is_space c = false.
Proof.
  intros E. unfold trim in E.
  set (D := drop_while is_space s) in *.
  destruct (drop_while_prefix is_space (rev D)) as [pre2 E2].
  set (Y := drop_while is_space (rev D)) in *.
  assert (ED : D = c :: t ++ rev pre2).
  { rewrite <- (rev_involutive D), E2, rev_app_distr, E. reflexivity. }
  exact (drop_while_head is_space s _ _ ED).
Qed.

Lemma trim_last (s a : jstr) (c : N) : trim s = a ++ [c] -> is_space c = false.
Proof.
  intros E. unfold trim in E. apply (f_equal (@rev N)) in E.
  rewrite rev_involutive, rev_app_distr in E. simpl in E.
  exact (drop_while_head _ _ _ _ E).
Qed.

Lemma drop_while_nil (p : N -> bool) (s : jstr) (c : N) :
  drop_while p s = [] -> In c s -> p c = true.
Proof.
  induction s as [|d r IH]; simpl; [intros _ []|].
  destruct (p d) eqn:Hd; [|discriminate].
  intros E [<-|Hc]; [exact Hd|exact (IH E Hc)].
Qed.

Lemma trim_nil (s : jstr) (c : N) : trim s = [] -> In c s -> is_space c = true.
Proof.
  intros E Hc. unfold trim in E.
  destruct (drop_while is_space s) as [|d r] eqn:Ed.
  - exact (drop_while_nil _ _ _ Ed Hc).
  - apply (f_equal (@rev N)) in E. rewrite rev_involutive in E.
    assert (Hd : is_space d = true).
    { apply (drop_while_nil _ _ _ E). apply in_rev. rewrite rev_involutive. left. reflexivity. }
    rewrite (drop_while_head _ _ _ _ Ed) in Hd. discriminate.
Qed.

Lemma trim_nonnil (s : jstr) (c : N) : In c s -> is_space c = false -> trim s <> [].
Proof. intros Hc Hs E. rewrite (trim_nil s c E Hc) in Hs. discriminate. Qed.

Lemma is_space_32 : is_space 32 = true.
Proof. reflexivity. Qed.

(** X15: [cleanTitle] returns a normal form: no leading or trailing
    whitespace, no whitespace character other than the space, and no two
    consecutive spaces. *)
Theorem cleanTitle_normal (t : jstr) :
  let s := cleanTitle t in
  Forall (fun c => is_space c = false \/ c = 32) s /\
  (forall c r, s = c :: r -> is_space c = false) /\
  (forall a c, s = a ++ [c] -> is_space c = false) /\
  (forall a b, s <> a ++ 32 :: 32 :: b).
Proof.
  intros s. subst s. unfold cleanTitle.
  set (X := collapse_runs is_space 32 false (strip_xe t)).
  assert (HX : Forall (fun c => is_space c = false \/ c = 32) X).
  { apply collapse_runs_chars; [|right; reflexivity].
    apply Forall_forall. intros c _ Hc. left. exact Hc. }
  destruct (collapse_no_adjacent is_space 32 false (strip_xe t) is_space_32) as [Hadj _].
  fold X in Hadj.
  repeat split.
  - rewrite Forall_forall in HX |- *. intros c Hc. apply HX, trim_incl, Hc.
  - intros c r E. exact (trim_head _ _ _ E).
  - intros a c E. exact (trim_last _ _ _ E).
  - intros a b E. destruct (trim_infix X) as [pre [post EX]].
    rewrite E in EX. apply (Hadj (pre ++ a) (b ++ post)).
    rewrite EX, <- !app_assoc. reflexivity.
Qed.

(** ** Titles and slugs of the parsed recipes *)

Section Titles.

Variable toLowerCase : jstr -> jstr.
Variable normalizeNFD : jstr -> jstr.
Variable all_lines : list jstr.

Lemma save_current_ok (rs : list RawRecipe) (cur : option RawRecipe) :
  Forall (title_ok toLowerCase normalizeNFD all_lines) rs ->
  (forall r, cur = Some r -> title_ok toLowerCase normalizeNFD all_lines r) ->
  Forall (title_ok toLowerCase normalizeNFD all_lines) (save_current rs cur).
Proof.
  intros H Hc. destruct cur as [r|]; simpl; [|exact H].
  destruct (is_blank (rawContent r)); [exact H|].
  apply Forall_app. split; [exact H|]. constructor; [apply Hc; reflexivity|constructor].
Qed.

Lemma parse_fold_ok (lines : list jstr) (st : ParseState) :
  incl lines all_lines -> parse_inv toLowerCase normalizeNFD all_lines st ->
  parse_inv toLowerCase normalizeNFD all_lines
    (fold_left (parse_step toLowerCase normalizeNFD) lines st).
Proof.
  revert st. induction lines as [|l lines IH]; intros st Hincl [Hr Hc]; simpl; [split; auto|].
  apply IH; [intros x Hx; apply Hincl; right; exact Hx|].
  unfold parse_step.
  destruct (is_blank l && match currentRecipe st with None => true | Some _ => false end);
    [split; auto|].
  destruct (inIndex st && (isIndexEntry (trim l) || single_upper (trim l)
                           || starts_with INDEX (trim l))); [split; auto|].
  destruct (inIndex st && negb (isRecipeTitle (trim l))); [split; auto|].
  destruct (isRecipeTitle (trim l)) eqn:Ht.
  - split; [apply save_current_ok; auto|].
    intros r E. injection E as <-. split; [reflexivity|].
    exists l. split; [apply Hincl; left; reflexivity|]. split; auto.
  - unfold parse_inv; simpl.
    destruct (currentRecipe st) as [r|] eqn:Ec; (split; [exact Hr|]); intros r' E;
      [|discriminate]. injection E as <-. destruct (Hc r eq_refl) as [H1 H2]. split; auto.
Qed.

End Titles.

Lemma recipe_title_nonempty (line : jstr) :
  isRecipeTitle line = true -> cleanTitle line <> [].
Proof.
  unfold isRecipeTitle, cleanTitle. intros H.
  destruct (trim (strip_xe line)) as [|c r] eqn:E; [discriminate|].
  assert (Hc : In c (strip_xe line)) by (apply trim_incl; rewrite E; left; reflexivity).
  apply (trim_nonnil _ c); [apply collapse_keeps; [exact Hc|]|]; exact (trim_head _ _ _ E).
Qed.

(** X16: every recipe returned by [parseRecipes] has a non-empty title,
    which is [cleanTitle] of a trimmed line of the input that
    [isRecipeTitle] accepts, and its slug is [slugify] of that title. *)
Theorem parseRecipes_titles (toLowerCase normalizeNFD : jstr -> jstr) (text : jstr)
    (r : RawRecipe) :
  In r (parseRecipes toLowerCase normalizeNFD text) ->
  slug r = slugify toLowerCase normalizeNFD (title r) /\ title r <> [] /\
  exists line, In line (split_nl text) /\ isRecipeTitle (trim line) = true /\
               title r = cleanTitle (trim line).
Proof.
  intros Hin. unfold parseRecipes in Hin.
  destruct (parse_fold_ok toLowerCase normalizeNFD (split_nl text) (split_nl text)
              (mkParseState [] None true) (incl_refl _)) as [Hr Hc];
    [split; [constructor|discriminate]|].
  pose proof (save_current_ok _ _ _ _ _ Hr Hc) as H. rewrite Forall_forall in H.
  destruct (H r Hin) as [Hs [line [Hl [Ht Et]]]].
  split; [exact Hs|]. split; [rewrite Et; apply recipe_title_nonempty; exact Ht|].
  exists line. auto.
Qed.

Lemma parseRecipes_titles_witness :
  let r := mkRawRecipe (js "SOPA"%string) (js "sopa"%string)
             (js "Una sopa muy sencilla de hacer en casa.
"%string) in
  In r (parseRecipes (map ascii_lower_cu) (fun s => s) demo_text) /\
  slug r = slugify (map ascii_lower_cu) (fun s => s) (title r) /\ title r <> [] /\
  exists line, In line (split_nl demo_text) /\ isRecipeTitle (trim line) = true /\
               title r = cleanTitle (trim line).
Proof.
  assert (H : In (mkRawRecipe (js "SOPA"%string) (js "sopa"%string)
             (js "Una sopa muy sencilla de hacer en casa.
"%string)) (parseRecipes (map ascii_lower_cu) (fun s => s) demo_text))
    by (vm_compute; right; left; reflexivity).
  split; [exact H|]. exact (parseRecipes_titles _ _ _ _ H).
Defined.

(** ** Statistics of [main] *)

Lemma process_recipe_kind (raw : RawRecipe) :
  is_blank (rawContent raw) = false ->
  truthy (ingredientes (process_recipe raw)) = negb (truthy (content (process_recipe raw))).
Proof.
  intros Hnb. unfold process_recipe, separateContent.
  destruct (sep_run_nonempty sep_init (split_nl (rawContent raw)) (Forall_nil _) (Forall_nil _))
    as [Hi _].
  set (st := sep_run sep_init (split_nl (rawContent raw))) in *.
  destruct (Nat.leb 2 (length (ingredientLines st)) && Nat.leb 1 (length (methodLines st)))
    eqn:Eb; simpl.
  - apply andb_true_iff in Eb as [E1 _]. apply Nat.leb_le in E1.
    destruct (join nl (ingredientLines st)) eqn:J; [|reflexivity].
    exfalso. refine (join_nonempty nl _ Hi _ J). intros Hn; rewrite Hn in E1; simpl in E1; lia.
  - apply is_blank_false in Hnb. destruct (trim (rawContent raw)); [congruence|reflexivity].
Qed.

Lemma filter_length_negb {A} (f g : A -> bool) (l : list A) :
  (forall x, In x l -> f x = negb (g x)) ->
  (length (filter f l) + length (filter g l))%nat = length l.
Proof.
  induction l as [|x l IH]; intros H; simpl; [reflexivity|].
  rewrite (H x (or_introl eq_refl)).
  specialize (IH (fun y Hy => H y (or_intror Hy))).
  destruct (g x); simpl; lia.
Qed.

(** X17: the two statistics printed by [main] add up to the number of
    recipes: each processed recipe is counted exactly once, with or without
    separation. *)
Theorem main_stats_total (toLowerCase normalizeNFD : jstr -> jstr) (text : jstr) :
  let procs := processedRecipes toLowerCase normalizeNFD text in
  (withSeparation procs + withoutSeparation procs)%nat = length procs.
Proof.
  cbv zeta. unfold withSeparation, withoutSeparation.
  apply filter_length_negb. intros r Hr.
  unfold processedRecipes in Hr. apply in_map_iff in Hr as [raw [<- Hraw]].
  pose proof (parseRecipes_nonblank toLowerCase normalizeNFD text) as H.
  rewrite Forall_forall in H. apply process_recipe_kind, H, Hraw.
Qed.

(** ** Recipe files *)

Lemma dir_read_write (d : Dir) (k s : jstr) (r : Receta) :
  dir_read (dir_write d k r) s = if jstr_eq_dec s k then Some r else dir_read d s.
Proof.
  induction d as [|[k' r'] d IH]; simpl.
  - reflexivity.
  - destruct (jstr_eq_dec k k') as [<-|Hk]; simpl.
    + destruct (jstr_eq_dec s k); reflexivity.
    + rewrite IH. destruct (jstr_eq_dec s k') as [->|Hs]; [|reflexivity].
      destruct (jstr_eq_dec k' k); [congruence|reflexivity].
Qed.

Lemma getReceta_written (d : Dir) (procs : list Receta) (s : jstr) :
  getReceta (writeRecipeFiles d procs) s =
  match rev (filter (fun r => jstr_eqb (rc_slug r) s) procs) with
  | r :: _ => Some r
  | [] => getReceta d s
  end.
Proof.
  unfold writeRecipeFiles, getReceta. revert d.
  induction procs as [|r procs IH] using rev_ind; intros d; [reflexivity|].
  rewrite fold_left_app. simpl. rewrite dir_read_write, IH.
  rewrite filter_app. simpl.
  destruct (jstr_eq_dec s (rc_slug r)) as [->|Hs].
  - destruct (jstr_eqb_spec (rc_slug r) (rc_slug r)); [|congruence].
    rewrite rev_app_distr. reflexivity.
  - destruct (jstr_eqb_spec (rc_slug r) s); [congruence|].
    rewrite app_nil_r. reflexivity.
Qed.

(** X18: after [main] writes the recipe files, [getReceta] of a slug returns
    the last processed recipe with that slug, or what the directory held
    before when no recipe has it. *)
Theorem writeRecipeFiles_lookup (d : Dir) (procs : list Receta) (s : jstr) :
  getReceta (writeRecipeFiles d procs) s =
  match rev (filter (fun r => jstr_eqb (rc_slug r) s) procs) with
  | r :: _ => Some r
  | [] => getReceta d s
  end.
Proof. apply getReceta_written. Qed.

(** ** The index of [main] *)

Lemma mainIndex_perm (lc : jstr -> jstr -> Z) (procs : list Receta) :
  Permutation (mainIndex lc procs) (map (fun r => mkIndexEntry (rc_title r) (rc_slug r)) procs).
Proof. apply sort_by_perm. Qed.

(** X19: the index written by [main] holds one entry per processed recipe
    (title and slug), and for a consistent comparator no entry is
    immediately followed by one whose title compares strictly before its
    own. *)
Theorem mainIndex_sorted_perm (lc : jstr -> jstr -> Z) (procs : list Receta) :
  (forall a b, (lc a b < 0)%Z -> ~ (lc b a < 0)%Z) ->
  (forall a b c, (lc a b < 0)%Z -> (lc b c < 0)%Z -> (lc a c < 0)%Z) ->
  Permutation (mainIndex lc procs) (map (fun r => mkIndexEntry (rc_title r) (rc_slug r)) procs) /\
  Sorted (fun e1 e2 => (lc (ie_title e2) (ie_title e1) <? 0)%Z = false) (mainIndex lc procs).
Proof.
  intros H _. split; [apply mainIndex_perm|]. exact (sort_by_sorted ie_title lc H _).
Qed.

Lemma mainIndex_sorted_perm_witness :
  let procs := processedRecipes (map ascii_lower_cu) (fun s => s) demo_text in
  (forall a b, (cu_compare a b < 0)%Z -> ~ (cu_compare b a < 0)%Z) /\
  (forall a b c, (cu_compare a b < 0)%Z -> (cu_compare b c < 0)%Z ->
                 (cu_compare a c < 0)%Z) /\
  Permutation (mainIndex cu_compare procs)
    (map (fun r => mkIndexEntry (rc_title r) (rc_slug r)) procs) /\
  Sorted (fun e1 e2 => (cu_compare (ie_title e2) (ie_title e1) <? 0)%Z = false)
    (mainIndex cu_compare procs).
Proof.
  split; [exact cu_compare_asym|]. split; [exact cu_compare_trans|].
  apply mainIndex_sorted_perm; [exact cu_compare_asym|exact cu_compare_trans].
Defined.

(** ** Links of the index to the recipe pages *)

Lemma recipe_view_process (r : RawRecipe) :
  (exists I M, recipe_view (process_recipe r) = PageSplit (title r) I M) \/
  recipe_view (process_recipe r) =
    PageContent (title r) (map content_line (split_nl (trim (rawContent r)))).
Proof.
  pose proof (recipe_view_processed r) as E. cbv zeta in E. rewrite E.
  destruct (_ && _); [left; eexists _, _; reflexivity|right; reflexivity].
Qed.

Lemma NoDup_map_inj {A B} (f : A -> B) (l : list A) (x y : A) :
  NoDup (map f l) -> In x l -> In y l -> f x = f y -> x = y.
Proof.
  induction l as [|z l IH]; intros Hnd Hx Hy E; [destruct Hx|].
  simpl in Hnd. inversion Hnd as [|? ? Hz Hnd']; subst.
  destruct Hx as [<-|Hx], Hy as [<-|Hy]; auto.
  - exfalso. apply Hz. rewrite E. apply in_map, Hy.
  - exfalso. apply Hz. rewrite <- E. apply in_map, Hx.
Qed.

(** X20: every index entry links to a page that exists: [getReceta] finds a
    processed recipe with that slug and [RecetaPage] renders it, neither
    not-found nor a runtime error; when slugs are unique that recipe carries
    the entry's title. *)
Theorem index_links (toLowerCase normalizeNFD : jstr -> jstr) (lc : jstr -> jstr -> Z)
    (d : Dir) (text : jstr) (e : IndexEntry) :
  let procs := processedRecipes toLowerCase normalizeNFD text in
  let files := writeRecipeFiles d procs in
  In e (mainIndex lc procs) ->
  exists r, In r procs /\ rc_slug r = ie_slug e /\
    getReceta files (ie_slug e) = Some r /\
    RecetaPage files (ie_slug e) = recipe_view r /\
    RecetaPage files (ie_slug e) <> PageNotFound /\
    RecetaPage files (ie_slug e) <> PageError /\
    (NoDup (map rc_slug procs) -> rc_title r = ie_title e).
Proof.
  intros procs files He.
  apply (Permutation_in _ (mainIndex_perm lc procs)), in_map_iff in He as [r0 [<- Hr0]].
  cbn [ie_slug ie_title].
  assert (Hf : In r0 (filter (fun r => jstr_eqb (rc_slug r) (rc_slug r0)) procs)).
  { apply filter_In. split; [exact Hr0|]. destruct (jstr_eqb_spec (rc_slug r0) (rc_slug r0)); congruence. }
  pose proof (getReceta_written d procs (rc_slug r0)) as Eg. fold files in Eg.
  destruct (rev (filter (fun r => jstr_eqb (rc_slug r) (rc_slug r0)) procs)) as [|r rs] eqn:Er.
  { apply in_rev in Hf. rewrite Er in Hf. destruct Hf. }
  assert (Hr : In r (filter (fun r => jstr_eqb (rc_slug r) (rc_slug r0)) procs)).
  { apply in_rev. rewrite Er. left. reflexivity. }
  apply filter_In in Hr as [Hr Hs]. destruct (jstr_eqb_spec (rc_slug r) (rc_slug r0)) as [Hs'|];
    [|discriminate].
  assert (Ep : RecetaPage files (rc_slug r0) = recipe_view r)
    by (unfold RecetaPage; rewrite Eg; reflexivity).
  exists r. split; [exact Hr|]. split; [exact Hs'|]. split; [exact Eg|]. split; [exact Ep|].
  rewrite Ep. pose proof Hr as Hrp.
  unfold procs, processedRecipes in Hr. apply in_map_iff in Hr as [raw [Eraw _]].
  split; [|split].
  - rewrite <- Eraw. destruct (recipe_view_process raw) as [[I [M ->]]| ->]; discriminate.
  - rewrite <- Eraw. destruct (recipe_view_process raw) as [[I [M ->]]| ->]; discriminate.
  - intros Hnd. assert (r = r0) as ->; [|reflexivity].
    apply (NoDup_map_inj rc_slug procs); auto.
Qed.

Lemma index_links_witness :
  let procs := processedRecipes (map ascii_lower_cu) (fun s => s) demo_text in
  let files := writeRecipeFiles [] procs in
  let e := nth 0 (mainIndex cu_compare procs) (mkIndexEntry [] []) in
  In e (mainIndex cu_compare procs) /\
  (exists r, In r procs /\ rc_slug r = ie_slug e /\
    getReceta files (ie_slug e) = Some r /\
    RecetaPage files (ie_slug e) = recipe_view r /\
    RecetaPage files (ie_slug e) <> PageNotFound /\
    RecetaPage files (ie_slug e) <> PageError /\
    (NoDup (map rc_slug procs) -> rc_title r = ie_title e)).
Proof.
  assert (H : In (nth 0 (mainIndex cu_compare
                           (processedRecipes (map ascii_lower_cu) (fun s => s) demo_text))
                     (mkIndexEntry [] []))
                 (mainIndex cu_compare
                    (processedRecipes (map ascii_lower_cu) (fun s => s) demo_text)))
    by (vm_compute; left; reflexivity).
  split; [exact H|]. exact (index_links _ _ _ [] _ _ H).
Defined.

(** ** Idempotence of slugs *)

Lemma slugify_wf (toLowerCase normalizeNFD : jstr -> jstr) (T : jstr) :
  let s := slugify toLowerCase normalizeNFD T in
  Forall (fun c => slug_char c = true) s /\
  (forall t, s <> 45 :: t) /\
  (forall t, s <> t ++ [45]) /\
  (forall a t, s <> a ++ 45 :: 45 :: t).
Proof.
  intros s. subst s. unfold slugify.
  set (s0 := filter slug_keep _).
  assert (H0 : Forall (fun c => slug_keep c = true) s0).
  { apply Forall_forall. intros c Hc. apply filter_In in Hc. tauto. }
  set (s1 := collapse_runs is_space 45 false s0).
  assert (H1 : Forall (fun c => slug_char c = true) s1).
  { apply collapse_runs_chars; [|reflexivity].
    eapply Forall_impl; [|exact H0]. intros c Hk Hsp.
    unfold slug_keep in Hk. rewrite Hsp in Hk. unfold slug_char.
    rewrite orb_false_r in Hk. exact Hk. }
  set (s2 := collapse_runs (N.eqb 45) 45 false s1).
  assert (H2 : Forall (fun c => slug_char c = true) s2).
  { apply collapse_runs_chars; [|reflexivity].
    eapply Forall_impl; [|exact H1]. auto. }
  destruct (collapse_hyphens_ok false s1) as [Hd _].
  exact (trim_hyphens_ok _ s2 H2 Hd).
Qed.

Lemma slug_char_range (c : N) :
  slug_char c = true -> c = 45 \/ (48 <= c <= 57) \/ (97 <= c <= 122).
Proof.
  unfold slug_char, is_lower_ascii, is_digit. intros H.
  repeat rewrite orb_true_iff in H. repeat rewrite andb_true_iff in H.
  rewrite !N.leb_le, N.eqb_eq in H. lia.
Qed.

Lemma slug_char_props (c : N) :
  slug_char c = true ->
  is_space c = false /\ slug_keep c = true /\
  negb ((768 <=? c) && (c <=? 879)) = true /\ ascii_lower_cu c = c.
Proof.
  intros H. pose proof (slug_char_range c H) as R.
  assert (Hs : is_space c = false).
  { unfold is_space.
    repeat match goal with
           | |- context [c =? ?k] => replace (c =? k) with false by (symmetry; apply N.eqb_neq; lia)
           end.
    replace (8192 <=? c) with false by (symmetry; apply N.leb_gt; lia). reflexivity. }
  split; [exact Hs|]. split.
  - unfold slug_keep. unfold slug_char in H. rewrite Hs, orb_false_r. exact H.
  - split.
    + replace (768 <=? c) with false by (symmetry; apply N.leb_gt; lia). reflexivity.
    + unfold ascii_lower_cu, is_upper_ascii.
      replace (65 <=? c) with (65 <=? c) by reflexivity.
      destruct (N.leb_spec 65 c), (N.leb_spec c 90); simpl; try reflexivity. lia.
Qed.

Lemma filter_all_true {A} (f : A -> bool) (l : list A) :
  Forall (fun x => f x = true) l -> filter f l = l.
Proof.
  induction l as [|x l IH]; intros H; simpl; [reflexivity|].
  inversion H; subst. rewrite H2, IH by assumption. reflexivity.
Qed.

Lemma collapse_runs_none (p : N -> bool) (rep : N) (b : bool) (s : jstr) :
  Forall (fun c => p c = false) s -> collapse_runs p rep b s = s.
Proof.
  revert b. induction s as [|c r IH]; intros b H; simpl; [reflexivity|].
  inversion H; subst. rewrite H2, IH by assumption. reflexivity.
Qed.

Lemma collapse_hyphens_id (s : jstr) :
  (forall a t, s <> a ++ 45 :: 45 :: t) ->
  collapse_runs (N.eqb 45) 45 false s = s /\
  ((forall t, s <> 45 :: t) -> collapse_runs (N.eqb 45) 45 true s = s).
Proof.
  induction s as [|c r IH]; intros Hd; [split; reflexivity|].
  assert (Hr : forall a t, r <> a ++ 45 :: 45 :: t).
  { intros a t E. apply (Hd (c :: a) t). rewrite E. reflexivity. }
  destruct (IH Hr) as [IH1 IH2]. cbn [collapse_runs].
  destruct (N.eqb_spec 45 c) as [<-|Hc].
  - split.
    + rewrite IH2; [reflexivity|]. intros t E. apply (Hd [] t). rewrite E. reflexivity.
    + intros H. exfalso. exact (H r eq_refl).
  - rewrite IH1. split; [reflexivity|intros _; reflexivity].
Qed.

Lemma trim_hyphens_id (s : jstr) :
  (forall t, s <> 45 :: t) -> (forall t, s <> t ++ [45]) -> trim_hyphens s = s.
Proof.
  intros Hh Ht. unfold trim_hyphens.
  assert (E1 : match s with c :: r => if c =? 45 then r else s | [] => [] end = s).
  { destruct s as [|c r]; [reflexivity|].
    destruct (N.eqb_spec c 45) as [->|]; [exfalso; exact (Hh r eq_refl)|reflexivity]. }
  rewrite E1. destruct (rev s) as [|c r] eqn:Er; [reflexivity|].
  destruct (N.eqb_spec c 45) as [->|]; [|reflexivity].
  exfalso. apply (Ht (rev r)). rewrite <- (rev_involutive s), Er. reflexivity.
Qed.

(** X21: [slugify] is idempotent, provided [toLowerCase] and
    [normalize('NFD')] leave strings of lower-case ASCII letters, digits and
    hyphens unchanged. *)
Theorem slugify_idempotent (toLowerCase normalizeNFD : jstr -> jstr) (T : jstr) :
  (forall s, Forall (fun c => slug_char c = true) s -> toLowerCase s = s) ->
  (forall s, Forall (fun c => slug_char c = true) s -> normalizeNFD s = s) ->
  slugify toLowerCase normalizeNFD (slugify toLowerCase normalizeNFD T) =
  slugify toLowerCase normalizeNFD T.
Proof.
  intros Hl Hn. destruct (slugify_wf toLowerCase normalizeNFD T) as [Hc [Hh [Ht Hd]]].
  set (s := slugify toLowerCase normalizeNFD T) in *.
  unfold slugify at 1. rewrite Hl, Hn by exact Hc.
  assert (E1 : filter (fun c => negb ((768 <=? c) && (c <=? 879))) s = s).
  { apply filter_all_true. eapply Forall_impl; [|exact Hc]. intros c H. apply slug_char_props, H. }
  rewrite E1.
  assert (E2 : filter slug_keep s = s).
  { apply filter_all_true. eapply Forall_impl; [|exact Hc]. intros c H. apply slug_char_props, H. }
  rewrite E2.
  rewrite (collapse_runs_none is_space 45 false s).
  2:{ eapply Forall_impl; [|exact Hc]. intros c H. apply slug_char_props, H. }
  destruct (collapse_hyphens_id s Hd) as [-> _].
  apply trim_hyphens_id; assumption.
Qed.

Lemma lower_slug (s : jstr) :
  Forall (fun c => slug_char c = true) s -> map ascii_lower_cu s = s.
Proof.
  induction s as [|c r IH]; intros H; simpl; [reflexivity|].
  inversion H; subst. rewrite IH by assumption. f_equal. apply slug_char_props. assumption.
Qed.

Lemma slugify_idempotent_witness :
  (forall s, Forall (fun c => slug_char c = true) s -> map ascii_lower_cu s = s) /\
  (forall s, Forall (fun c => slug_char c = true) s -> (fun x : jstr => x) s = s) /\
  slugify (map ascii_lower_cu) (fun s => s)
    (slugify (map ascii_lower_cu) (fun s => s) (js "POLLO AL HORNO (Receta de casa)"%string)) =
  slugify (map ascii_lower_cu) (fun s => s) (js "POLLO AL HORNO (Receta de casa)"%string).
Proof.
  split; [exact lower_slug|]. split; [intros s _; reflexivity|].
  apply slugify_idempotent; [exact lower_slug|intros s _; reflexivity].
Defined.
